(** * connector.cpp: a two-way console messenger over one TCP connection

    The program starts two relay threads (recv_loop, send_loop) next to
    the supervising main thread; the three share the atomic flag
    [running] and the connection descriptor.  The development embeds
    each thread as a deterministic step function over one shared state,
    the operating system as queues of pending answers, and the scheduler
    as the list of thread names that are given the next step. *)

From Stdlib Require Import ZArith Ascii String.
From stdpp Require Import base tactics option list.

Open Scope Z_scope.

(** ** Bytes and text *)

(** std::string and char buffers are byte sequences. *)
Abbreviation bytes := (list ascii).

Definition str (s : string) : bytes := list_ascii_of_string s.

Definition NUL : ascii := "000"%char.
Definition newline : ascii := "010"%char.

(** What [operator<<(const char* )] prints: the bytes before the first
    NUL. *)
Fixpoint c_str (l : bytes) : bytes :=
  match l with
  | [] => []
  | c :: l' => if Ascii.eqb c NUL then [] else c :: c_str l'
  end.

(** [b[i]] on a vector<char>; every index the program uses is in range. *)
Definition at_index (b : bytes) (i : nat) : ascii := default NUL (b !! i).

(** ssize_t and size_t arithmetic of a 64-bit target. *)
Definition wrap_ssize (z : Z) : Z := (z + 2 ^ 63) mod 2 ^ 64 - 2 ^ 63.
Definition wrap_size (z : Z) : Z := z mod 2 ^ 64.

(** ** The operating system *)

(** errno values of <cerrno> (Linux numbering); only the comparison with
    EINTR is ever made by the program. *)
Definition EINTR : Z := 4.
Definition EBADF : Z := 9.
Definition EPIPE : Z := 32.

Inductive sock_state := SockOpen | SockShut | SockClosed.

(** What the network holds for the next recv. *)
Inductive in_event :=
| InData (bs : bytes)     (* bytes queued by the peer *)
| InFin                   (* the peer closed the connection *)
| InErr (errno : Z).      (* recv fails with this errno *)

(** How the kernel answers the next send. *)
Inductive out_event :=
| OutAccept (room : nat)  (* it takes at most [room] bytes *)
| OutErr (errno : Z).     (* send fails with this errno *)

(** What the console holds for the next getline. *)
Inductive console_event :=
| ConsoleLine (l : bytes)
| ConsoleEOF.

Record recv_ret := RecvRet {
  recv_n : Z; recv_data : bytes; recv_errno : Z; recv_rest : list in_event }.

(** The answer to a recv of at most [len] bytes that finds the bytes [bs]
    waiting: it hands out the first [len] of them and leaves the others for
    the next call. *)
Definition recv_queued (len : nat) (bs : bytes) (q' : list in_event)
  : recv_ret :=
  let d := take len bs in
  let rest := match drop len bs with
              | [] => q'
              | r => InData r :: q'
              end in
  RecvRet (Z.of_nat (length d)) d 0 rest.

(** recv(fd, buf, len, 0), for a call that is in flight: recv_loop enters
    recv in the step in which it finds [running] set, when the connection
    is still open, and a call that has been entered keeps the connection
    whatever happens to the descriptor.  [None]: the call goes on waiting.
    On an open connection the call is answered by what the network holds.
    Once the connection has been half-closed, and also after the close that
    follows, the call hands out the bytes that were already waiting and
    then returns 0. *)
Definition os_recv (sk : sock_state) (len : nat) (q : list in_event)
  : option recv_ret :=
  match sk with
  | SockShut | SockClosed =>
      match q with
      | InData bs :: q' => Some (recv_queued len bs q')
      | _ => Some (RecvRet 0 [] 0 q)
      end
  | SockOpen =>
      match q with
      | [] => None
      | InData bs :: q' => Some (recv_queued len bs q')
      | InFin :: _ => Some (RecvRet 0 [] 0 q)
      | InErr e :: q' => Some (RecvRet (-1) [] e q')
      end
  end.

Record send_ret := SendRet {
  send_n : Z; send_errno : Z; send_rest : list out_event }.

(** How a send ends: it returns, or it raises SIGPIPE. *)
Inductive send_outcome :=
| SendReturns (r : send_ret)
| SendSigpipe.

(** send(fd, data, |data|, 0).  [None]: the call blocks.  On an open
    connection the kernel takes a prefix of [data] or fails.  The program
    sends with flags 0: where the call would fail with EPIPE (the
    connection is broken, or this side has half-closed it) the kernel
    raises SIGPIPE, and the call never returns EPIPE to the program.  On a
    closed descriptor the call fails with EBADF and raises nothing. *)
Definition os_send (sk : sock_state) (data : bytes) (q : list out_event)
  : option send_outcome :=
  match sk with
  | SockClosed => Some (SendReturns (SendRet (-1) EBADF q))
  | SockShut => Some SendSigpipe
  | SockOpen =>
      match q with
      | [] => None
      | OutAccept room :: q' =>
          Some (SendReturns
                  (SendRet (Z.of_nat (Nat.min room (length data))) 0 q'))
      | OutErr e :: q' =>
          if e =? EPIPE then Some SendSigpipe
          else Some (SendReturns (SendRet (-1) e q'))
      end
  end.

(** ** Observable actions *)

Inductive stream := Cout | Cerr.

Inductive event :=
| EvRecv (len : nat) (n : Z)          (* recv(conn, buf, len, 0) = n *)
| EvSend (data : bytes) (n : Z)       (* send(conn, data, |data|, 0) = n *)
| EvGetline (r : option bytes)        (* getline(cin, line) *)
| EvWrite (f : stream) (text : bytes) (* operator<< *)
| EvFlush (f : stream)
| EvPerror (tag : bytes) (errno : Z)
| EvShutdown                          (* shutdown(conn, SHUT_RDWR) *)
| EvClose                             (* close(conn) *)
| EvGaiError (ret : Z)                (* cerr << gai_strerror(ret) *)
| EvCloseFd (fd : Z)                  (* close of another descriptor *)
| EvSigpipe.                          (* SIGPIPE terminates the process *)

(** ** Threads *)

Inductive recv_pc :=
| RHead          (* at [while (running.load())] *)
| RRecv          (* inside recv *)
| RDone.         (* recv_loop has returned *)

Inductive send_pc :=
| SHead                                   (* at [running.load() && ...] *)
| SGetline                                (* inside getline *)
| SSend (out : bytes) (sent to_send : Z)  (* at [while (to_send > 0)] *)
| SDone.                                  (* send_loop has returned *)

Inductive main_pc :=
| MPoll          (* at [while (running.load()) sleep] *)
| MShutdown      (* before shutdown(conn_fd, SHUT_RDWR) *)
| MClose         (* before close(conn_fd) *)
| MJoinS         (* before s.join() *)
| MJoinR         (* before r.join() *)
| MExiting       (* before the last message *)
| MExit (code : Z)  (* main has returned *)
| MKilled.       (* the process has been terminated by a signal *)

Record state := State {
  uname : bytes;              (* username, fixed at start *)
  running : bool;             (* static atomic<bool> running *)
  sock : sock_state;          (* conn_fd *)
  rpc : recv_pc;
  buf : bytes;                (* recv_loop's buf *)
  spc : send_pc;
  mpc : main_pc;
  net_in : list in_event;
  net_out : list out_event;
  console : list console_event;
  wire : bytes;               (* every byte the kernel took from send *)
  trace : list event          (* oldest first *)
}.

Definition set_running (b : bool) (s : state) : state :=
  State (uname s) b (sock s) (rpc s) (buf s) (spc s) (mpc s)
        (net_in s) (net_out s) (console s) (wire s) (trace s).
Definition set_sock (k : sock_state) (s : state) : state :=
  State (uname s) (running s) k (rpc s) (buf s) (spc s) (mpc s)
        (net_in s) (net_out s) (console s) (wire s) (trace s).
Definition set_rpc (p : recv_pc) (s : state) : state :=
  State (uname s) (running s) (sock s) p (buf s) (spc s) (mpc s)
        (net_in s) (net_out s) (console s) (wire s) (trace s).
Definition set_buf (b : bytes) (s : state) : state :=
  State (uname s) (running s) (sock s) (rpc s) b (spc s) (mpc s)
        (net_in s) (net_out s) (console s) (wire s) (trace s).
Definition set_spc (p : send_pc) (s : state) : state :=
  State (uname s) (running s) (sock s) (rpc s) (buf s) p (mpc s)
        (net_in s) (net_out s) (console s) (wire s) (trace s).
Definition set_mpc (p : main_pc) (s : state) : state :=
  State (uname s) (running s) (sock s) (rpc s) (buf s) (spc s) p
        (net_in s) (net_out s) (console s) (wire s) (trace s).
Definition set_net_in (q : list in_event) (s : state) : state :=
  State (uname s) (running s) (sock s) (rpc s) (buf s) (spc s) (mpc s)
        q (net_out s) (console s) (wire s) (trace s).
Definition set_net_out (q : list out_event) (s : state) : state :=
  State (uname s) (running s) (sock s) (rpc s) (buf s) (spc s) (mpc s)
        (net_in s) q (console s) (wire s) (trace s).
Definition set_console (q : list console_event) (s : state) : state :=
  State (uname s) (running s) (sock s) (rpc s) (buf s) (spc s) (mpc s)
        (net_in s) (net_out s) q (wire s) (trace s).
Definition put_wire (w : bytes) (s : state) : state :=
  State (uname s) (running s) (sock s) (rpc s) (buf s) (spc s) (mpc s)
        (net_in s) (net_out s) (console s) (wire s ++ w) (trace s).
Definition emit (evs : list event) (s : state) : state :=
  State (uname s) (running s) (sock s) (rpc s) (buf s) (spc s) (mpc s)
        (net_in s) (net_out s) (console s) (wire s) (trace s ++ evs).

(** *** recv_loop *)

Definition BUF : nat := 1024.

(** What one completed recv makes of the loop body. *)
Definition recv_body (r : recv_ret) (s : state) : state :=
  let n := recv_n r in
  let s := emit [EvRecv (BUF - 1) n] (set_net_in (recv_rest r) s) in
  (* the kernel has copied the received bytes to the front of buf *)
  let s := set_buf (recv_data r ++ drop (length (recv_data r)) (buf s)) s in
  if 0 <? n then
    let s := set_buf (<[Z.to_nat n := NUL]> (buf s)) s in
    let s := emit [EvWrite Cout (str "[remote] ");
                   EvWrite Cout (c_str (buf s))] s in
    let s := if negb (Ascii.eqb (at_index (buf s) (Z.to_nat (n - 1))) newline)
             then emit [EvWrite Cout [newline]] s
             else s in
    set_rpc RHead (emit [EvFlush Cout] s)
  else if n =? 0 then
    let s := emit [EvWrite Cerr (str "Connection closed by peer");
                   EvWrite Cerr [newline]; EvFlush Cerr] s in
    set_rpc RDone (set_running false s)
  else if recv_errno r =? EINTR then
    set_rpc RHead s
  else
    set_rpc RDone (set_running false (emit [EvPerror (str "recv") (recv_errno r)] s)).

Definition recv_step (s : state) : option state :=
  match rpc s with
  | RHead => Some (if running s then set_rpc RRecv s else set_rpc RDone s)
  | RRecv =>
      match os_recv (sock s) (BUF - 1) (net_in s) with
      | None => None
      | Some r => Some (recv_body r s)
      end
  | RDone => None
  end.

(** *** send_loop *)

Definition message (name line : bytes) : bytes :=
  name ++ str ": " ++ line ++ [newline].

Definition echo (name line : bytes) : list event :=
  [EvWrite Cout (str "[you] "); EvWrite Cout name; EvWrite Cout (str ": ");
   EvWrite Cout line; EvWrite Cout [newline]; EvFlush Cout].

(** The bytes handed to send: [to_send] bytes from [data + sent]. *)
Definition offered (out : bytes) (sent to_send : Z) : bytes :=
  take (Z.to_nat to_send) (drop (Z.to_nat sent) out).

(** What one completed send makes of the inner loop body. *)
Definition send_body (out : bytes) (sent to_send : Z) (r : send_ret)
    (s : state) : state :=
  let n := send_n r in
  let s := emit [EvSend (offered out sent to_send) n]
                (set_net_out (send_rest r) s) in
  if n <? 0 then
    if send_errno r =? EINTR then s
    else set_spc SDone
           (set_running false (emit [EvPerror (str "send") (send_errno r)] s))
  else
    set_spc (SSend out (wrap_ssize (sent + n)) (wrap_size (to_send - n)))
            (put_wire (take (Z.to_nat n) (offered out sent to_send)) s).

Definition send_step (s : state) : option state :=
  match spc s with
  | SHead =>
      Some (if running s then set_spc SGetline s
            else set_spc SDone (set_running false s))
  | SGetline =>
      match console s with
      | [] => None
      | ConsoleEOF :: _ =>
          Some (set_spc SDone (set_running false (emit [EvGetline None] s)))
      | ConsoleLine line :: q =>
          let out := message (uname s) line in
          let s := emit (EvGetline (Some line) :: echo (uname s) line)
                        (set_console q s) in
          Some (set_spc (SSend out 0 (Z.of_nat (length out))) s)
      end
  | SSend out sent to_send =>
      if 0 <? to_send then
        match os_send (sock s) (offered out sent to_send) (net_out s) with
        | None => None
        | Some (SendReturns r) => Some (send_body out sent to_send r s)
        | Some SendSigpipe =>
            (* the program leaves SIGPIPE at its default action *)
            Some (set_mpc MKilled (emit [EvSigpipe] s))
        end
      else Some (set_spc SHead s)
  | SDone => None
  end.

(** *** handle_sigint *)

Definition handle_sigint (s : state) : state := set_running false s.

(** *** main, from the start of the two threads on *)

Definition main_step (s : state) : option state :=
  match mpc s with
  | MPoll => Some (if running s then s else set_mpc MShutdown s)
  | MShutdown =>
      let k := match sock s with SockOpen => SockShut | k => k end in
      Some (set_mpc MClose (emit [EvShutdown] (set_sock k s)))
  | MClose => Some (set_mpc MJoinS (emit [EvClose] (set_sock SockClosed s)))
  | MJoinS =>
      match spc s with
      | SDone => Some (set_mpc MJoinR s)
      | _ => None
      end
  | MJoinR =>
      match rpc s with
      | RDone => Some (set_mpc MExiting s)
      | _ => None
      end
  | MExiting =>
      Some (set_mpc (MExit 0)
              (emit [EvWrite Cout (str "Exiting."); EvWrite Cout [newline];
                     EvFlush Cout] s))
  | MExit _ => None
  | MKilled => None
  end.

(** ** Interleaving *)

Inductive tid := TMain | TRecv | TSend | TSigint.

Definition exited (s : state) : bool :=
  match mpc s with MExit _ | MKilled => true | _ => false end.

(** One step of the named thread; [None] when it cannot move (blocked,
    returned, or the process is gone). *)
Definition step (t : tid) (s : state) : option state :=
  if exited s then None
  else match t with
       | TMain => main_step s
       | TRecv => recv_step s
       | TSend => send_step s
       | TSigint => Some (handle_sigint s)
       end.

(** A schedule names who is offered the next step; an offer to a thread
    that cannot move changes nothing. *)
Fixpoint run (sched : list tid) (s : state) : state :=
  match sched with
  | [] => s
  | t :: sched' => run sched' (default s (step t s))
  end.

(** The state right after [thread r(recv_loop, conn_fd)] and
    [thread s(send_loop, conn_fd, username)]. *)
Definition session (name : bytes) (nin : list in_event)
    (nout : list out_event) (con : list console_event) : state :=
  State name true SockOpen RHead (replicate BUF NUL) SHead MPoll
        nin nout con [] [].

(** ** Establishing the connection *)

(** One entry of the getaddrinfo result, with the answers the system
    will give for it. *)
Record addrinfo := AddrInfo {
  ai_socket : Z;      (* socket(ai_family, ai_socktype, ai_protocol) *)
  ai_bind : Z;        (* bind(sfd, ai_addr, ai_addrlen) *)
  ai_connect : Z      (* connect(sfd, ai_addr, ai_addrlen) *)
}.

Record os_setup := OsSetup {
  gai_ret : Z;                  (* getaddrinfo *)
  gai_res : addrinfo;           (* res, when gai_ret = 0 *)
  gai_next : list addrinfo;     (* res->ai_next ... *)
  listen_ret : Z;               (* listen(sfd, 1) *)
  accept_ret : Z;               (* accept(srv, ...) *)
  setup_errno : Z               (* errno left by the call that failed *)
}.

Definition endl (f : stream) : list event := [EvWrite f [newline]; EvFlush f].

Definition create_server_socket (port_str : bytes) (os : os_setup)
  : Z * list event :=
  if negb (gai_ret os =? 0) then
    (-1, [EvWrite Cerr (str "getaddrinfo: "); EvGaiError (gai_ret os)]
           ++ endl Cerr)
  else
    let sfd := ai_socket (gai_res os) in
    if sfd <? 0 then (-1, [EvPerror (str "socket") (setup_errno os)])
    else if negb (ai_bind (gai_res os) =? 0) then
      (-1, [EvPerror (str "bind") (setup_errno os); EvCloseFd sfd])
    else if negb (listen_ret os =? 0) then
      (-1, [EvPerror (str "listen") (setup_errno os); EvCloseFd sfd])
    else (sfd, []).

(** The loop [for (rp = res; rp != NULL; rp = rp->ai_next)]. *)
Fixpoint connect_loop (rp : list addrinfo) : Z * list event :=
  match rp with
  | [] => (-1, [])
  | a :: rp' =>
      let sfd := ai_socket a in
      if sfd =? -1 then connect_loop rp'
      else if ai_connect a =? 0 then (sfd, [])
      else let '(r, evs) := connect_loop rp' in (r, EvCloseFd sfd :: evs)
  end.

Definition create_client_socket (host port_str : bytes) (os : os_setup)
  : Z * list event :=
  if negb (gai_ret os =? 0) then
    (-1, [EvWrite Cerr (str "getaddrinfo: "); EvGaiError (gai_ret os)]
           ++ endl Cerr)
  else
    let '(sfd, evs) := connect_loop (gai_res os :: gai_next os) in
    if sfd =? -1 then (sfd, evs ++ [EvPerror (str "connect") (setup_errno os)])
    else (sfd, evs).

Definition bytes_eqb (a b : bytes) : bool :=
  String.eqb (string_of_list_ascii a) (string_of_list_ascii b).

(** argv[i] *)
Definition arg (argv : list bytes) (i : nat) : bytes := default [] (argv !! i).

Inductive setup_result :=
| SetupExit (code : Z) (out : list event)              (* main returned *)
| SetupOk (conn_fd : Z) (name : bytes) (out : list event).

(** main up to the start of the threads. *)
Definition main_setup (argv : list bytes) (os : os_setup) : setup_result :=
  let argc := Z.of_nat (length argv) in
  if argc <? 2 then
    SetupExit 1
      [EvWrite Cerr (str "Usage:" ++ newline :: str "  As server: ");
       EvWrite Cerr (arg argv 0);
       EvWrite Cerr (str " --listen <port>" ++ newline :: str "  As client: ");
       EvWrite Cerr (arg argv 0);
       EvWrite Cerr (str " <host> <port>" ++ [newline])]
  else if bytes_eqb (arg argv 1) (str "--listen") then
    if argc <? 3 then
      SetupExit 1 [EvWrite Cerr (str "Please specify port to listen on" ++ [newline])]
    else
      let port := arg argv 2 in
      let username := if 4 <=? argc then arg argv 3 else str "server" in
      let '(srv, evs) := create_server_socket port os in
      if srv <? 0 then SetupExit 1 evs
      else
        let evs := evs ++ [EvWrite Cout (str "Listening on port ");
                           EvWrite Cout port;
                           EvWrite Cout (str " ... waiting for a connection")]
                       ++ endl Cout in
        let conn_fd := accept_ret os in
        if conn_fd <? 0 then
          SetupExit 1 (evs ++ [EvPerror (str "accept") (setup_errno os);
                               EvCloseFd srv])
        else
          SetupOk conn_fd username
            (evs ++ [EvCloseFd srv; EvWrite Cout (str "Client connected")]
                 ++ endl Cout)
  else
    if argc <? 3 then
      SetupExit 1 [EvWrite Cerr (str "Please specify host and port" ++ [newline])]
    else
      let host := arg argv 1 in
      let port := arg argv 2 in
      let username := if 4 <=? argc then arg argv 3 else str "host" in
      let '(conn_fd, evs) := create_client_socket host port os in
      if conn_fd <? 0 then SetupExit 1 evs
      else
        SetupOk conn_fd username
          (evs ++ [EvWrite Cout (str "Connected to "); EvWrite Cout host;
                   EvWrite Cout (str ":"); EvWrite Cout port] ++ endl Cout).

(** The whole program under a schedule: the value returned by main, if
    main has returned by the end of the schedule. *)
Definition exit_code (argv : list bytes) (os : os_setup)
    (nin : list in_event) (nout : list out_event)
    (con : list console_event) (sched : list tid) : option Z :=
  match main_setup argv os with
  | SetupExit code _ => Some code
  | SetupOk _ name _ =>
      match mpc (run sched (session name nin nout con)) with
      | MExit code => Some code
      | _ => None
      end
  end.

(** * Notions and scenarios of the properties *)

(** Reading a field of an updated state. *)
Ltac fields :=
  cbn [uname running sock rpc buf spc mpc net_in net_out console wire trace
       set_running set_sock set_rpc set_buf set_spc set_mpc set_net_in
       set_net_out set_console put_wire emit handle_sigint] in *.

(** ** The inbound relay *)

(** The lengths asked for, and the values returned, by the recv calls of
    a trace. *)
Definition recv_requests (tr : list event) : list nat :=
  omap (λ e, match e with EvRecv len _ => Some len | _ => None end) tr.

Definition recv_sizes (tr : list event) : list Z :=
  omap (λ e, match e with EvRecv _ n => Some n | _ => None end) tr.

(** Every recv so far asked for BUF - 1 bytes and got no more, and the
    buffer keeps its BUF bytes. *)
Definition recv_bounded (s : state) : Prop :=
  Forall (λ len, len = (BUF - 1)%nat) (recv_requests (trace s)) ∧
  Forall (λ n, n ≤ Z.of_nat (BUF - 1)) (recv_sizes (trace s)) ∧
  length (buf s) = BUF.

(** A peer that has sent 1024 bytes at once. *)
Definition big_chunk_session : state :=
  session (str "bob") [InData (replicate 1024 "a"%char)] [] [].

(** The inbound relay, having read the bytes of [r] in state [s], prints
    them as a C string behind the prefix, then a newline exactly when the
    last byte read is not one, then flushes, and goes back to the loop
    head. *)
Definition prints_chunk (s : state) (r : recv_ret) : Prop :=
  ∃ s' nl,
    recv_step s = Some s' ∧
    trace s' = trace s ++ [EvRecv (BUF - 1) (recv_n r);
                           EvWrite Cout (str "[remote] ");
                           EvWrite Cout (c_str (recv_data r))]
                       ++ nl ++ [EvFlush Cout] ∧
    (last (recv_data r) ≠ Some newline → nl = [EvWrite Cout [newline]]) ∧
    (last (recv_data r) = Some newline → nl = []) ∧
    running s' = running s ∧ rpc s' = RHead.

(** alice's line arrives in one read. *)
Definition hello_session : state :=
  session (str "bob") [InData (str "alice: hello" ++ [newline])] [] [].

Definition hello_ret : recv_ret :=
  RecvRet 13 (str "alice: hello" ++ [newline]) 0 [].

(** "ab", NUL, "cd\n" arrives in one read. *)
Definition nul_chunk : bytes := str "ab" ++ NUL :: str "cd" ++ [newline].

(** ** The outbound relay *)

(** The text written to cout by a run of events. *)
Definition cout_text (evs : list event) : bytes :=
  concat (omap (λ e, match e with EvWrite Cout t => Some t | _ => None end) evs).

(** The lines getline has delivered, in order. *)
Definition lines_read (tr : list event) : list bytes :=
  omap (λ e, match e with EvGetline (Some l) => Some l | _ => None end) tr.

(** Steps of the other threads leave the outbound relay, the console and
    the wire alone, read no line and never set [running] again. *)
Definition send_frame (s s' : state) : Prop :=
  spc s' = spc s ∧ wire s' = wire s ∧ uname s' = uname s ∧
  console s' = console s ∧ net_out s' = net_out s ∧
  (running s = false → running s' = false) ∧
  ∃ evs, trace s' = trace s ++ evs ∧ lines_read evs = [].

(** alice types one line. *)
Definition typing_session : state :=
  session (str "alice") [] [] [ConsoleLine (str "hello")].

(** The wire after the messages of the lines [ls] have gone out whole. *)
Definition sent_whole (name : bytes) (ls : list bytes) : bytes :=
  concat (map (message name) ls).

(** A write error other than EINTR has been reported. *)
Definition send_failed (tr : list event) : Prop :=
  ∃ e, EvPerror (str "send") e ∈ tr ∧ e ≠ EINTR.

(** Where the wire stands, by the place of the outbound relay:
    - before it reads a line, every line read so far is on the wire whole;
    - inside the write loop, the lines before the current one are on the
      wire whole, followed by the first [sent] bytes of the current
      message, and [to_send] counts the rest;
    - after it has returned, either every line read is on the wire whole,
      or the last one is cut short, a write error was reported and the
      flag is set. *)
Definition send_progress (name : bytes) (s : state) : Prop :=
  match spc s with
  | SHead | SGetline => wire s = sent_whole name (lines_read (trace s))
  | SSend out sent to_send =>
      ∃ ls l, lines_read (trace s) = ls ++ [l] ∧ out = message name l ∧
        0 ≤ sent ∧ 0 ≤ to_send ∧ sent + to_send = Z.of_nat (length out) ∧
        wire s = sent_whole name ls ++ take (Z.to_nat sent) out
  | SDone =>
      wire s = sent_whole name (lines_read (trace s)) ∨
      ∃ ls l k, lines_read (trace s) = ls ++ [l] ∧
        wire s = sent_whole name ls ++ take k (message name l) ∧
        (k < length (message name l))%nat ∧
        running s = false ∧ send_failed (trace s)
  end.

(** std::string sizes fit ssize_t. *)
Definition fits (name : bytes) (c : console_event) : Prop :=
  match c with
  | ConsoleLine l => Z.of_nat (length (message name l)) < 2 ^ 63
  | ConsoleEOF => True
  end.

(** What every step keeps on the side of the outbound relay. *)
Definition send_inv (name : bytes) (s : state) : Prop :=
  uname s = name ∧ Forall (fits name) (console s) ∧
  match spc s with
  | SSend out _ _ => Z.of_nat (length out) < 2 ^ 63
  | _ => True
  end ∧
  send_progress name s.


(** The interrupt arrives while the inbound relay waits in recv. *)
Definition interrupted_session : state :=
  session (str "bob") [InErr EINTR] [] [].

Definition interrupted_schedule : list tid := [TRecv; TSigint; TRecv; TRecv].

(** Both relays are interrupted: one in recv, one in the first send of
    "bob: hi". *)
Definition both_interrupted : state :=
  run [TRecv; TSend; TSend]
      (session (str "bob") [InErr EINTR] [OutErr EINTR] [ConsoleLine (str "hi")]).

(** ** The supervising thread *)

(** The calls main has made on the connection, in order. *)
Definition endpoint_calls (tr : list event) : list event :=
  omap (λ e, match e with
             | EvShutdown => Some EvShutdown
             | EvClose => Some EvClose
             | _ => None
             end) tr.

(** Both relays have returned and main has closed the connection and
    returned 0. *)
Definition stopped (s : state) : Prop :=
  mpc s = MExit 0 ∧ rpc s = RDone ∧ spc s = SDone ∧ sock s = SockClosed.

(** The process is over: the session is Stopped, or SIGPIPE has ended
    it. *)
Definition ended (s : state) : Prop := stopped s ∨ mpc s = MKilled.

(** Where main stands. *)
Definition main_inv (s : state) : Prop :=
  match mpc s with
  | MPoll => sock s = SockOpen ∧ endpoint_calls (trace s) = []
  | MShutdown =>
      running s = false ∧ sock s = SockOpen ∧ endpoint_calls (trace s) = []
  | MClose =>
      running s = false ∧ sock s = SockShut ∧
      endpoint_calls (trace s) = [EvShutdown]
  | MJoinS =>
      running s = false ∧ sock s = SockClosed ∧
      endpoint_calls (trace s) = [EvShutdown; EvClose]
  | MJoinR =>
      running s = false ∧ sock s = SockClosed ∧
      endpoint_calls (trace s) = [EvShutdown; EvClose] ∧ spc s = SDone
  | MExiting =>
      running s = false ∧ sock s = SockClosed ∧
      endpoint_calls (trace s) = [EvShutdown; EvClose] ∧ spc s = SDone ∧
      rpc s = RDone
  | MExit code =>
      code = 0 ∧ running s = false ∧ sock s = SockClosed ∧
      endpoint_calls (trace s) = [EvShutdown; EvClose] ∧ spc s = SDone ∧
      rpc s = RDone
  | MKilled =>
      (endpoint_calls (trace s) = [] ∨
       endpoint_calls (trace s) = [EvShutdown]) ∧
      ∃ out sent to_send, spc s = SSend out sent to_send
  end.

(** Steps of the relays and of the signal handler leave main and the
    connection alone, never set [running] again and never restart a relay
    that has returned. *)
Definition main_frame (s s' : state) : Prop :=
  mpc s' = mpc s ∧ sock s' = sock s ∧
  (running s = false → running s' = false) ∧
  (rpc s = RDone → rpc s' = RDone) ∧ (spc s = SDone → spc s' = SDone) ∧
  ∃ evs, trace s' = trace s ++ evs ∧ endpoint_calls evs = [].

(** A request to stop, the relays' turn to see it, and main's way out. *)
Definition quit : list tid :=
  [TSigint; TRecv; TSend; TMain; TMain; TMain; TMain; TMain; TMain].

(** The user ends the input while the inbound relay waits in recv: the
    relay has seen the flag unset and has called recv, the outbound relay
    reads end-of-input and sets the flag, main sees the flag and
    half-closes. *)
Definition input_ended_session : state :=
  session (str "bob") [] [] [ConsoleEOF].

Definition input_ended_schedule : list tid :=
  [TRecv; TSend; TSend; TMain; TMain].

(** The outbound relay waits in getline and the console has nothing for
    it. *)
Definition waits_on_silent_console (s : state) : Prop :=
  spc s = SGetline ∧ console s = [].

(** The peer closes the connection while the outbound relay waits for a
    line on a silent console. *)
Definition peer_closed_session : state :=
  session (str "bob") [InFin] [] [].

(** Main goes up to the join, the outbound relay comes back, main goes
    on to return. *)
Definition finish : list tid :=
  [TMain; TMain; TMain; TSend; TSend; TMain; TMain; TMain].

(** What is left to do once the flag is set and the inbound relay has
    returned. *)
Definition winding_down (s : state) : Prop :=
  main_inv s ∧ running s = false ∧ rpc s = RDone ∧
  (spc s ≠ SGetline ∨ console s ≠ []).

(** How many steps the outbound relay is from returning, once the flag is
    set and the connection closed. *)
Definition send_rank (s : state) : option nat :=
  match spc s with
  | SDone => Some 0%nat
  | SHead => Some 1%nat
  | SSend _ _ to_send => Some (if 0 <? to_send then 1%nat else 2%nat)
  | SGetline =>
      match console s with
      | [] => None
      | ConsoleEOF :: _ => Some 1%nat
      | ConsoleLine _ :: _ => Some 2%nat
      end
  end.

(** ** Establishment *)

(** A candidate address on which the dialer does not get a connection. *)
Definition candidate_fails (a : addrinfo) : Prop :=
  ai_socket a = -1 ∨ ai_connect a ≠ 0.

(** The establishment failures named by the interface description, read
    off the answers of the system: arguments missing; resolution failed;
    as listener, no socket, bind, listen or accept failed; as dialer, no
    candidate address could be connected. *)
Definition establishment_failure (argv : list bytes) (os : os_setup) : Prop :=
  (length argv < 3)%nat ∨
  gai_ret os ≠ 0 ∨
  if bytes_eqb (arg argv 1) (str "--listen") then
    ai_socket (gai_res os) < 0 ∨ ai_bind (gai_res os) ≠ 0 ∨
    listen_ret os ≠ 0 ∨ accept_ret os < 0
  else Forall candidate_fails (gai_res os :: gai_next os).

(** socket() returns a descriptor or -1. *)
Definition posix_sockets (os : os_setup) : Prop :=
  Forall (λ a, -1 ≤ ai_socket a) (gai_res os :: gai_next os).

(** bob dials 127.0.0.1:9001 and gets a connection at the first address. *)
Definition dial_argv : list bytes :=
  [str "connector"; str "127.0.0.1"; str "9001"; str "bob"].

Definition dial_ok : os_setup := OsSetup 0 (AddrInfo 3 0 0) [] 0 0 0.

(** The same where the peer refuses the connection. *)
Definition dial_refused : os_setup := OsSetup 0 (AddrInfo 3 0 (-1)) [] 0 0 111.

(** ** Descriptors and arguments *)

(** The descriptors, other than the connection, closed by a run of
    events. *)
Definition fd_closes (evs : list event) : list Z :=
  omap (λ e, match e with EvCloseFd fd => Some fd | _ => None end) evs.

(** The sockets that socket() has handed out for a list of candidates. *)
Definition opened (l : list addrinfo) : list Z :=
  omap (λ a, if ai_socket a =? -1 then None else Some (ai_socket a)) l.

(** What main has written before the threads start, or before it returns
    early. *)
Definition setup_out (r : setup_result) : list event :=
  match r with
  | SetupExit _ out => out
  | SetupOk _ _ out => out
  end.

(** Two addresses for the host: the first refuses, the second accepts. *)
Definition dial_second : os_setup :=
  OsSetup 0 (AddrInfo 3 0 (-1)) [AddrInfo 4 0 0; AddrInfo 5 0 0] 0 0 111.

(** alice listens on port 9001. *)
Definition listen_argv : list bytes :=
  [str "connector"; str "--listen"; str "9001"; str "alice"].

(** The port is taken: bind fails. *)
Definition bind_refused : os_setup := OsSetup 0 (AddrInfo 3 (-1) 0) [] 0 7 98.

(** ** Winding down from the outbound side *)

(** Main goes up to the join, the inbound relay comes back (its recv
    returns, and if that handed out bytes it sees the flag at the loop
    head), main goes on to return. *)
Definition finish_inbound : list tid :=
  [TMain; TMain; TMain; TRecv; TRecv; TMain; TMain; TMain].

(** A relay that has returned has left the flag set. *)
Definition returned_with_flag (s : state) : Prop :=
  (rpc s = RDone → running s = false) ∧ (spc s = SDone → running s = false).

(** What is left to do once the outbound relay has returned. *)
Definition winding_down_inbound (s : state) : Prop :=
  main_inv s ∧ running s = false ∧ spc s = SDone.

(** The user ends the input while the peer is silent. *)
Definition quiet_peer_session : state :=
  session (str "bob") [] [] [ConsoleEOF].

(** The connection is reset while the user has ended the input. *)
Definition reset_session : state :=
  session (str "bob") [InErr 104] [] [ConsoleEOF].

(** ** After a request to stop *)

(** 1 when the outbound relay is inside getline, 0 otherwise. *)
Definition pending_getline (s : state) : nat :=
  match spc s with SGetline => 1 | _ => 0 end.

(** 1 when the inbound relay is inside recv, 0 otherwise. *)
Definition pending_recv (s : state) : nat :=
  match rpc s with RRecv => 1 | _ => 0 end.

(** Both relays are inside their blocking calls; lines and chunks keep
    coming. *)
Definition busy_session : state :=
  run [TRecv; TSend]
      (session (str "bob") [InData (str "a"); InData (str "b")] []
               [ConsoleLine (str "x"); ConsoleLine (str "y")]).

(** main has just half-closed the connection; the outbound relay is in the
    middle of "bob: hi" and the kernel would take the rest. *)
Definition half_closed_session : state :=
  run [TSend; TSend; TSend; TSigint; TMain; TMain]
      (session (str "bob") [] [OutAccept 3; OutAccept 100]
               [ConsoleLine (str "hi")]).

(** ** From one console to the other *)

(** alice has typed "hello" and her relay has sent it in two parts. *)
Definition alice_sent : state :=
  run [TSend; TSend; TSend; TSend; TSend]
      (session (str "alice") [] [OutAccept 4; OutAccept 100]
               [ConsoleLine (str "hello")]).

(** A line of 1500 bytes with its newline has arrived. *)
Definition long_line_session : state :=
  session (str "bob") [InData (replicate 1500 "a"%char ++ [newline])] [] [].

(** ** Write errors *)

(** The peer resets the connection while bob's line is being sent; in the
    second scenario main half-closes before the first send. *)
Definition broken_pipe_session : state :=
  session (str "bob") [] [OutAccept 3; OutErr 104] [ConsoleLine (str "hi")].

(** * Properties *)

(** ** Schedules and invariants *)

Lemma run_nil (s : state) : run [] s = s.
Proof. reflexivity. Qed.

Lemma run_cons (t : tid) (sched : list tid) (s : state) :
  run (t :: sched) s = run sched (default s (step t s)).
Proof. reflexivity. Qed.

Lemma run_app (a b : list tid) (s : state) : run (a ++ b) s = run b (run a s).
Proof. revert s. induction a as [|t a IH]; intros s; simpl; [done | apply IH]. Qed.

(** A property kept by every step holds after every schedule. *)
Lemma run_invariant (P : state → Prop) (sched : list tid) (s : state) :
  (∀ t s s', P s → step t s = Some s' → P s') →
  P s → P (run sched s).
Proof.
  intros Hstep. revert s.
  induction sched as [|t sched IH]; intros s Hs; simpl; [done|].
  apply IH. destruct (step t s) as [s'|] eqn:E; simpl; [by eapply Hstep | done].
Qed.

(** Case analysis on which thread moved. *)
Lemma step_inv (t : tid) (s s' : state) :
  step t s = Some s' →
  exited s = false ∧
  (main_step s = Some s' ∨ recv_step s = Some s' ∨ send_step s = Some s'
   ∨ s' = handle_sigint s).
Proof.
  unfold step. destruct (exited s); [done|].
  destruct t; intros H; split; auto.
  right; right; right. congruence.
Qed.

(** ** What the system calls return *)

Lemma os_recv_spec (sk : sock_state) (len : nat) (q : list in_event)
    (r : recv_ret) :
  os_recv sk len q = Some r →
  (length (recv_data r) ≤ len)%nat ∧
  (recv_n r = -1 ∧ recv_data r = [] ∨
   recv_n r = Z.of_nat (length (recv_data r))).
Proof.
  unfold os_recv, recv_queued. intros H.
  destruct sk; destruct q as [|[bs| |e] q]; simplify_eq; simpl;
    (split; [rewrite ?length_take; lia | auto]).
Qed.

Lemma os_send_spec (sk : sock_state) (data : bytes) (q : list out_event)
    (r : send_ret) :
  os_send sk data q = Some (SendReturns r) →
  send_n r = -1 ∨ 0 ≤ send_n r ≤ Z.of_nat (length data).
Proof.
  unfold os_send. intros H.
  destruct sk; [destruct q as [|[room|e] q] | |]; simplify_eq; simpl; auto.
  - right. lia.
  - destruct (e =? EPIPE); simplify_eq. auto.
Qed.

(** ** The inbound relay: size of a read *)

Lemma recv_body_trace (r : recv_ret) (s : state) :
  ∃ evs, trace (recv_body r s) = trace s ++ EvRecv (BUF - 1) (recv_n r) :: evs ∧
         recv_requests evs = [] ∧ recv_sizes evs = [].
Proof.
  unfold recv_body.
  repeat case_match; simpl; rewrite <- ?app_assoc; simpl; eauto.
Qed.

Lemma recv_body_buf_length (r : recv_ret) (s : state) :
  (length (recv_data r) ≤ BUF - 1)%nat → length (buf s) = BUF →
  length (buf (recv_body r s)) = BUF.
Proof.
  intros Hd Hb. unfold recv_body.
  repeat case_match; fields;
    rewrite ?length_insert, length_app, length_drop; unfold BUF in *; lia.
Qed.

Lemma recv_requests_app (a b : list event) :
  recv_requests (a ++ b) = recv_requests a ++ recv_requests b.
Proof. apply omap_app. Qed.

Lemma recv_sizes_app (a b : list event) :
  recv_sizes (a ++ b) = recv_sizes a ++ recv_sizes b.
Proof. apply omap_app. Qed.

Lemma recv_bounded_step (t : tid) (s s' : state) :
  recv_bounded s → step t s = Some s' → recv_bounded s'.
Proof.
  intros (Hq & Hn & Hb) Hst. apply step_inv in Hst as [_ Hst].
  unfold recv_bounded.
  destruct Hst as [H|[H|[H| ->]]].
  - unfold main_step in H.
    repeat case_match; simplify_eq; fields;
      rewrite ?recv_requests_app, ?recv_sizes_app; simpl;
      rewrite ?app_nil_r; auto.
  - unfold recv_step in H. destruct (rpc s); [| |done].
    { simplify_eq. by destruct (running s). }
    destruct (os_recv _ _ _) as [r|] eqn:E; simplify_eq.
    destruct (os_recv_spec _ _ _ _ E) as [Hlen Hret].
    destruct (recv_body_trace r s) as (evs & Htr & Hev1 & Hev2).
    rewrite Htr, recv_requests_app, recv_sizes_app.
    change (recv_requests (EvRecv (BUF - 1) (recv_n r) :: evs))
      with ((BUF - 1)%nat :: recv_requests evs).
    change (recv_sizes (EvRecv (BUF - 1) (recv_n r) :: evs))
      with (recv_n r :: recv_sizes evs).
    rewrite Hev1, Hev2. repeat split.
    + apply Forall_app; split; [done | by constructor].
    + apply Forall_app; split; [done|]. constructor; [|done].
      destruct Hret as [[-> _]| ->]; lia.
    + by apply recv_body_buf_length.
  - unfold send_step, send_body in H.
    repeat case_match; simplify_eq; fields;
      rewrite ?recv_requests_app, ?recv_sizes_app; simpl;
      rewrite ?app_nil_r; auto.
  - done.
Qed.

Lemma session_recv_bounded (name : bytes) (nin : list in_event)
    (nout : list out_event) (con : list console_event) (sched : list tid) :
  recv_bounded (run sched (session name nin nout con)).
Proof.
  apply run_invariant; [apply recv_bounded_step|].
  repeat split; simpl; auto using length_replicate.
Qed.

(** C2, as stated, fails: with 1024 bytes waiting, the first recv of the
    inbound relay asks for 1023 bytes, not 1024. *)
Lemma recv_request_is_not_1024 :
  ¬ Forall (λ len, len = 1024%nat)
      (recv_requests (trace (run [TRecv; TRecv] big_chunk_session))).
Proof.
  assert (recv_requests (trace (run [TRecv; TRecv] big_chunk_session))
          = [1023%nat]) as -> by (vm_compute; reflexivity).
  intros H. apply Forall_cons in H as [H _]. discriminate H.
Qed.

(** C2, amended: the buffer of the inbound relay has 1024 bytes, and in
    every execution each recv asks for 1023 of them (BUF - 1, the last one
    is kept for the terminator) and returns at most that many. *)
Theorem recv_request_size (name : bytes) (nin : list in_event)
    (nout : list out_event) (con : list console_event) (sched : list tid) :
  let s := run sched (session name nin nout con) in
  length (buf s) = 1024%nat ∧
  Forall (λ len, len = 1023%nat) (recv_requests (trace s)) ∧
  Forall (λ n, n ≤ 1023) (recv_sizes (trace s)).
Proof.
  destruct (session_recv_bounded name nin nout con sched) as (Hq & Hn & Hb).
  repeat split; assumption.
Qed.

(** ** The inbound relay: printing a chunk *)

Lemma c_str_app_NUL (data rest : bytes) :
  c_str (data ++ NUL :: rest) = c_str data.
Proof.
  induction data as [|c data IH]; simpl; [done|].
  destruct (Ascii.eqb c NUL); [done | by rewrite IH].
Qed.

Lemma c_str_no_NUL (data : bytes) : NUL ∉ data → c_str data = data.
Proof.
  induction data as [|c data IH]; simpl; [done|].
  intros Hn. apply not_elem_of_cons in Hn as [Hc Hd].
  destruct (Ascii.eqb_spec c NUL); [congruence | by rewrite IH].
Qed.

Lemma c_str_embedded (pre post : bytes) :
  NUL ∉ pre → c_str (pre ++ NUL :: post) = pre.
Proof. intros H. by rewrite c_str_app_NUL, c_str_no_NUL. Qed.

(** The buffer after the kernel has stored [data] and the relay has
    written the terminator behind it. *)
Lemma terminated_buf (data b : bytes) :
  (length data < length b)%nat →
  <[length data := NUL]> (data ++ drop (length data) b)
  = data ++ NUL :: drop (S (length data)) b.
Proof.
  intros Hlt. rewrite insert_app_r_alt by lia.
  replace (length data - length data)%nat with 0%nat by lia.
  destruct (drop (length data) b) as [|c rest] eqn:E.
  - apply (f_equal length) in E. rewrite length_drop in E. simpl in E. lia.
  - simpl. do 2 f_equal.
    change rest with (drop 1 (c :: rest)). rewrite <- E, drop_drop.
    f_equal. lia.
Qed.

Lemma at_index_last (data rest : bytes) :
  data ≠ [] →
  Some (at_index (data ++ rest) (length data - 1)) = last data.
Proof.
  intros Hne. unfold at_index.
  rewrite lookup_app_l by (destruct data; simpl in *; [done | lia]).
  rewrite last_lookup.
  replace (length data - 1)%nat with (pred (length data)) by lia.
  destruct (data !! pred (length data)) eqn:E; [done|].
  apply lookup_ge_None in E. destruct data; simpl in *; [done | lia].
Qed.

(** The loop body on a read of n > 0 bytes. *)
Lemma recv_body_chunk (r : recv_ret) (s : state) :
  0 < recv_n r → recv_n r = Z.of_nat (length (recv_data r)) →
  (length (recv_data r) < length (buf s))%nat →
  ∃ nl,
    trace (recv_body r s)
    = trace s ++ [EvRecv (BUF - 1) (recv_n r);
                  EvWrite Cout (str "[remote] ");
                  EvWrite Cout (c_str (recv_data r))] ++ nl ++ [EvFlush Cout] ∧
    (last (recv_data r) ≠ Some newline → nl = [EvWrite Cout [newline]]) ∧
    (last (recv_data r) = Some newline → nl = []) ∧
    running (recv_body r s) = running s ∧
    rpc (recv_body r s) = RHead.
Proof.
  intros Hpos Hn Hlen. unfold recv_body.
  destruct (Z.ltb_spec 0 (recv_n r)) as [_|]; [|lia]. fields.
  rewrite Hn, Nat2Z.id, terminated_buf by done.
  replace (Z.to_nat (Z.of_nat (length (recv_data r)) - 1))
    with (length (recv_data r) - 1)%nat by lia.
  rewrite c_str_app_NUL.
  assert (recv_data r ≠ []) as Hne by (intros E; rewrite E in Hn; simpl in Hn; lia).
  pose proof (at_index_last (recv_data r)
                (NUL :: drop (S (length (recv_data r))) (buf s)) Hne) as Hlast.
  destruct (Ascii.eqb_spec
              (at_index (recv_data r ++ NUL :: drop (S (length (recv_data r))) (buf s))
                        (length (recv_data r) - 1)) newline) as [E|E];
    rewrite E in * || idtac; simpl; fields.
  - exists []. rewrite <- !app_assoc. simpl.
    repeat split; try done; intros Hc; rewrite <- Hlast in Hc; congruence.
  - exists [EvWrite Cout [newline]]. rewrite <- !app_assoc. simpl.
    repeat split; try done; intros Hc; rewrite <- Hlast in Hc; congruence.
Qed.

Lemma reachable_prints_chunk (name : bytes) (nin : list in_event)
    (nout : list out_event) (con : list console_event) (sched : list tid)
    (r : recv_ret) :
  let s := run sched (session name nin nout con) in
  rpc s = RRecv →
  os_recv (sock s) (BUF - 1) (net_in s) = Some r →
  0 < recv_n r →
  prints_chunk s r ∧ Z.of_nat (length (recv_data r)) = recv_n r.
Proof.
  intros s Hpc Hos Hpos.
  destruct (session_recv_bounded name nin nout con sched) as (_ & _ & Hb).
  fold s in Hb.
  destruct (os_recv_spec _ _ _ _ Hos) as [Hlen [[Hn _]|Hn]]; [lia|].
  split; [|done].
  destruct (recv_body_chunk r s Hpos Hn) as (nl & Htr & Hnl1 & Hnl2 & Hrun & Hr).
  { rewrite Hb. unfold BUF in *. lia. }
  exists (recv_body r s), nl. unfold recv_step. rewrite Hpc, Hos. done.
Qed.

(** C5: in every reachable state, a read of n > 0 bytes makes the inbound
    relay print "[remote] " and the received bytes as text (the bytes
    themselves when none of them is NUL), followed by a newline if and only
    if the n-th byte is not a newline, and only then flush. *)
Theorem recv_prints_remote_chunk (name : bytes) (nin : list in_event)
    (nout : list out_event) (con : list console_event) (sched : list tid)
    (r : recv_ret) :
  let s := run sched (session name nin nout con) in
  rpc s = RRecv →
  os_recv (sock s) (BUF - 1) (net_in s) = Some r →
  0 < recv_n r →
  prints_chunk s r ∧
  Z.of_nat (length (recv_data r)) = recv_n r ∧
  (NUL ∉ recv_data r → c_str (recv_data r) = recv_data r).
Proof.
  intros s Hpc Hos Hpos.
  destruct (reachable_prints_chunk name nin nout con sched r Hpc Hos Hpos).
  repeat split; try done. apply c_str_no_NUL.
Qed.

Lemma recv_prints_remote_chunk_witness :
  prints_chunk (run [TRecv] hello_session) hello_ret ∧
  Z.of_nat (length (recv_data hello_ret)) = recv_n hello_ret ∧
  (NUL ∉ recv_data hello_ret → c_str (recv_data hello_ret) = recv_data hello_ret).
Proof.
  apply (recv_prints_remote_chunk (str "bob")
           [InData (str "alice: hello" ++ [newline])] [] [] [TRecv] hello_ret);
    reflexivity.
Defined.

(** C10: when the chunk read holds a NUL byte, only the bytes before the
    first NUL are printed; the newline is still decided by the last byte
    read, which lies behind that NUL. *)
Theorem recv_truncates_at_NUL (name : bytes) (nin : list in_event)
    (nout : list out_event) (con : list console_event) (sched : list tid)
    (r : recv_ret) (pre post : bytes) :
  let s := run sched (session name nin nout con) in
  rpc s = RRecv →
  os_recv (sock s) (BUF - 1) (net_in s) = Some r →
  0 < recv_n r →
  recv_data r = pre ++ NUL :: post → NUL ∉ pre →
  ∃ s' nl,
    recv_step s = Some s' ∧
    trace s' = trace s ++ [EvRecv (BUF - 1) (recv_n r);
                           EvWrite Cout (str "[remote] ");
                           EvWrite Cout pre] ++ nl ++ [EvFlush Cout] ∧
    (last (NUL :: post) ≠ Some newline → nl = [EvWrite Cout [newline]]) ∧
    (last (NUL :: post) = Some newline → nl = []).
Proof.
  intros s Hpc Hos Hpos Hdata Hpre.
  destruct (reachable_prints_chunk name nin nout con sched r Hpc Hos Hpos)
    as [(s' & nl & Hst & Htr & Hnl1 & Hnl2 & _) _].
  fold s in Hst. rewrite Hdata, c_str_embedded in Htr by done.
  rewrite Hdata, last_app in Hnl1, Hnl2.
  exists s', nl.
  destruct (last (NUL :: post)) eqn:E; [done|].
  by apply last_None in E.
Qed.

Lemma recv_truncates_at_NUL_witness :
  ∃ s' nl,
    recv_step (run [TRecv] (session (str "bob") [InData nul_chunk] [] []))
      = Some s' ∧
    trace s' = [EvRecv (BUF - 1) 6; EvWrite Cout (str "[remote] ");
                EvWrite Cout (str "ab")] ++ nl ++ [EvFlush Cout] ∧
    (last (NUL :: str "cd" ++ [newline]) ≠ Some newline
       → nl = [EvWrite Cout [newline]]) ∧
    (last (NUL :: str "cd" ++ [newline]) = Some newline → nl = []).
Proof.
  apply (recv_truncates_at_NUL (str "bob") [InData nul_chunk] [] [] [TRecv]
           (RecvRet 6 nul_chunk 0 []) (str "ab") (str "cd" ++ [newline]));
    try reflexivity.
  vm_compute. intros H. repeat (apply elem_of_cons in H as [H|H]; [discriminate|]).
  by apply elem_of_nil in H.
Defined.

(** ** The outbound relay *)

Lemma lines_read_app (a b : list event) :
  lines_read (a ++ b) = lines_read a ++ lines_read b.
Proof. apply omap_app. Qed.

Lemma main_step_send_frame (s s' : state) :
  main_step s = Some s' → send_frame s s'.
Proof.
  unfold main_step, send_frame. intros H.
  repeat case_match; simplify_eq; fields; repeat split; auto;
    first [ done | by exists []; rewrite app_nil_r | by eexists ].
Qed.

Lemma recv_step_send_frame (s s' : state) :
  recv_step s = Some s' → send_frame s s'.
Proof.
  unfold recv_step, recv_body, send_frame. intros H.
  repeat case_match; simplify_eq; fields; repeat split; auto;
    rewrite <- ?app_assoc;
    first [ done | by exists []; rewrite app_nil_r | by eexists ].
Qed.

Lemma sigint_send_frame (s : state) : send_frame s (handle_sigint s).
Proof.
  unfold send_frame; fields. repeat split; auto.
  exists []. by rewrite app_nil_r.
Qed.

Lemma uname_run (name : bytes) (nin : list in_event) (nout : list out_event)
    (con : list console_event) (sched : list tid) :
  uname (run sched (session name nin nout con)) = name.
Proof.
  apply (run_invariant (λ s, uname s = name)); [|done].
  intros t s s' Hs Hst. apply step_inv in Hst as [_ [H|[H|[H| ->]]]].
  - apply main_step_send_frame in H as (_ & _ & -> & _). done.
  - apply recv_step_send_frame in H as (_ & _ & -> & _). done.
  - unfold send_step, send_body in H.
    repeat case_match; simplify_eq; fields; done.
  - done.
Qed.

Lemma offered_whole (out : bytes) :
  offered out 0 (Z.of_nat (length out)) = out.
Proof. unfold offered. rewrite Nat2Z.id. simpl. by rewrite take_ge. Qed.

(** C4: in every reachable state, a line delivered to the outbound relay
    makes it build the message name + ": " + line + newline, whose bytes
    are what the first send is handed, and write to cout exactly
    "[you] " + name + ": " + line and the end of line, then flush. *)
Theorem send_builds_message_and_echo (name : bytes) (nin : list in_event)
    (nout : list out_event) (con : list console_event) (sched : list tid)
    (line : bytes) (q : list console_event) :
  let s := run sched (session name nin nout con) in
  spc s = SGetline → console s = ConsoleLine line :: q →
  ∃ s' out evs,
    send_step s = Some s' ∧
    out = name ++ str ": " ++ line ++ [newline] ∧
    spc s' = SSend out 0 (Z.of_nat (length out)) ∧
    offered out 0 (Z.of_nat (length out)) = out ∧
    trace s' = trace s ++ EvGetline (Some line) :: evs ++ [EvFlush Cout] ∧
    Forall (λ e, ∃ t, e = EvWrite Cout t) evs ∧
    cout_text evs = str "[you] " ++ name ++ str ": " ++ line ++ [newline] ∧
    wire s' = wire s.
Proof.
  intros s Hpc Hcon.
  pose proof (uname_run name nin nout con sched) as Hname. fold s in Hname.
  unfold send_step. rewrite Hpc, Hcon, Hname.
  eexists _, (message name line),
    [EvWrite Cout (str "[you] "); EvWrite Cout name; EvWrite Cout (str ": ");
     EvWrite Cout line; EvWrite Cout [newline]].
  split; [reflexivity|]. fields.
  repeat split; auto using offered_whole.
  repeat constructor; by eexists.
Qed.

Lemma send_builds_message_and_echo_witness :
  ∃ s' out evs,
    send_step (run [TSend] typing_session) = Some s' ∧
    out = str "alice" ++ str ": " ++ str "hello" ++ [newline] ∧
    spc s' = SSend out 0 (Z.of_nat (length out)) ∧
    offered out 0 (Z.of_nat (length out)) = out ∧
    trace s' = trace (run [TSend] typing_session)
                 ++ EvGetline (Some (str "hello")) :: evs ++ [EvFlush Cout] ∧
    Forall (λ e, ∃ t, e = EvWrite Cout t) evs ∧
    cout_text evs = str "[you] " ++ str "alice" ++ str ": " ++ str "hello"
                      ++ [newline] ∧
    wire s' = wire (run [TSend] typing_session).
Proof.
  apply (send_builds_message_and_echo (str "alice") [] []
           [ConsoleLine (str "hello")] [TSend] (str "hello") []);
    reflexivity.
Defined.

(** ** The outbound relay: partial writes *)

Lemma sent_whole_snoc (name : bytes) (ls : list bytes) (l : bytes) :
  sent_whole name (ls ++ [l]) = sent_whole name ls ++ message name l.
Proof.
  unfold sent_whole. rewrite map_app, concat_app. simpl. by rewrite app_nil_r.
Qed.

Lemma send_failed_app (a b : list event) :
  send_failed a → send_failed (a ++ b).
Proof. intros (e & He & Hne). exists e. split; [|done]. apply elem_of_app; auto. Qed.

Lemma send_inv_frame (name : bytes) (s s' : state) :
  send_frame s s' → send_inv name s → send_inv name s'.
Proof.
  intros (Hpc & Hw & Hu & Hc & _ & Hr & evs & Htr & Hev) (Hname & Hfit & Hout & Hp).
  unfold send_inv, send_progress in *.
  rewrite Hpc, Hw, Hu, Hc, Htr, lines_read_app, Hev, app_nil_r.
  repeat split; try done.
  destruct (spc s); try done.
  destruct Hp as [Hp|(ls & l & k & Hl & Hwire & Hk & Hrun & Hf)]; [by left|].
  right. exists ls, l, k. repeat split; auto using send_failed_app.
Qed.

Lemma wrap_ssize_small (z : Z) : 0 ≤ z < 2 ^ 63 → wrap_ssize z = z.
Proof. intros H. unfold wrap_ssize. rewrite Z.mod_small; lia. Qed.

Lemma wrap_size_small (z : Z) : 0 ≤ z < 2 ^ 63 → wrap_size z = z.
Proof. intros H. unfold wrap_size. rewrite Z.mod_small; lia. Qed.

(** Inside the write loop the bytes handed to send are all the bytes of
    the message that are not on the wire yet. *)
Lemma offered_rest (out : bytes) (sent to_send : Z) :
  0 ≤ sent → sent + to_send = Z.of_nat (length out) →
  offered out sent to_send = drop (Z.to_nat sent) out.
Proof.
  intros Hs Hsum. unfold offered. apply take_ge. rewrite length_drop. lia.
Qed.

Lemma send_step_inv (name : bytes) (s s' : state) :
  send_inv name s → send_step s = Some s' → send_inv name s'.
Proof.
  intros (Hname & Hfit & Hout & Hp) Hst.
  unfold send_step in Hst. unfold send_inv, send_progress in *.
  destruct (spc s) as [| |out sent to_send|] eqn:Hpc; [| | |done].
  - (* the loop head *)
    destruct (running s); simplify_eq; fields; repeat split; auto.
  - (* getline *)
    destruct (console s) as [|[line|] q] eqn:Hcon; simplify_eq; fields.
    + apply Forall_cons in Hfit as [Hline Hq].
      repeat split; auto.
      exists (lines_read (trace s)), line.
      rewrite lines_read_app. simpl.
      repeat split; auto; try lia. by rewrite app_nil_r.
    + rewrite Hcon. split; [done|]. split; [done|]. split; [done|]. left.
      rewrite lines_read_app. simpl. by rewrite app_nil_r.
  - (* the write loop *)
    destruct Hp as (ls & l & Hl & Hmsg & Hs0 & Ht0 & Hsum & Hwire).
    destruct (Z.ltb_spec 0 to_send) as [Hpos|Hzero].
    + destruct (os_send _ _ _) as [[r|]|] eqn:Hos; simplify_eq.
      2: { (* SIGPIPE: the relay is left where it was *)
        fields. rewrite Hpc. repeat split; auto. exists ls, l.
        rewrite lines_read_app, Hl. simpl. rewrite app_nil_r.
        repeat split; auto. }
      apply os_send_spec in Hos.
      rewrite offered_rest, length_drop in Hos by done.
      unfold send_body.
      destruct (Z.ltb_spec (send_n r) 0) as [Hneg|Hnn].
      * destruct (send_errno r =? EINTR) eqn:He; fields; rewrite ?Hpc.
        -- repeat split; auto. exists ls, (l).
           rewrite lines_read_app, Hl. simpl. rewrite app_nil_r.
           repeat split; auto.
        -- repeat split; auto. right. exists ls, l, (Z.to_nat sent).
           rewrite !lines_read_app, Hl. simpl. rewrite !app_nil_r.
           repeat split; auto; [lia|].
           exists (send_errno r). split.
           ++ rewrite !elem_of_app. right. apply list_elem_of_singleton. done.
           ++ intros E. rewrite E in He. done.
      * destruct Hos as [Hos|Hos]; [lia|]. fields.
        rewrite wrap_ssize_small, wrap_size_small by lia.
        repeat split; auto.
        exists ls, l. rewrite lines_read_app, Hl. simpl. rewrite app_nil_r.
        repeat split; auto; try lia.
        rewrite Hwire, <- app_assoc. f_equal.
        rewrite offered_rest by done.
        rewrite take_take_drop. f_equal. lia.
    + simplify_eq. fields. repeat split; auto.
      rewrite Hl, sent_whole_snoc, Hwire. f_equal.
      apply take_ge. lia.
Qed.

Lemma send_inv_step (name : bytes) (t : tid) (s s' : state) :
  send_inv name s → step t s = Some s' → send_inv name s'.
Proof.
  intros Hinv Hst. apply step_inv in Hst as [_ [H|[H|[H| ->]]]].
  - by eapply send_inv_frame; [apply main_step_send_frame|].
  - by eapply send_inv_frame; [apply recv_step_send_frame|].
  - by eapply send_step_inv.
  - by eapply send_inv_frame; [apply sigint_send_frame|].
Qed.

Lemma session_send_inv (name : bytes) (nin : list in_event)
    (nout : list out_event) (con : list console_event) (sched : list tid) :
  Forall (fits name) con →
  send_inv name (run sched (session name nin nout con)).
Proof.
  intros Hfit. apply run_invariant; [apply send_inv_step|].
  repeat split; done.
Qed.

Lemma reachable_offered_rest (name : bytes) (nin : list in_event)
    (nout : list out_event) (con : list console_event) (sched : list tid)
    (out : bytes) (sent to_send : Z) :
  Forall (fits name) con →
  spc (run sched (session name nin nout con)) = SSend out sent to_send →
  offered out sent to_send = drop (Z.to_nat sent) out.
Proof.
  intros Hfit Hpc.
  destruct (session_send_inv name nin nout con sched Hfit) as (_ & _ & _ & Hp).
  unfold send_progress in Hp. rewrite Hpc in Hp.
  destruct Hp as (ls & l & _ & _ & Hs0 & _ & Hsum & _).
  by apply offered_rest.
Qed.

(** ** Interrupted system calls *)

(** C8, as stated, fails for reads: the recv that failed with EINTR is the
    only one the relay ever makes; having found the flag set at the loop
    head, it returns. *)
Lemma recv_EINTR_not_retried :
  trace (run interrupted_schedule interrupted_session)
    = [EvRecv (BUF - 1) (-1)] ∧
  rpc (run interrupted_schedule interrupted_session) = RDone ∧
  recv_step (run interrupted_schedule interrupted_session) = None.
Proof. vm_compute. done. Qed.

(** C8, amended: a recv or send that fails with EINTR prints nothing and
    leaves the flag as it is.  The write loop calls send again with the
    same bytes, which are the bytes of the message not yet on the wire.
    The inbound relay goes back to the loop head, where it calls recv again
    if the flag is still unset, and returns if it has been set meanwhile. *)
Theorem EINTR_is_silent_and_retried (name : bytes) (nin : list in_event)
    (nout : list out_event) (con : list console_event) (sched : list tid) :
  Forall (fits name) con →
  let s := run sched (session name nin nout con) in
  (∀ r, rpc s = RRecv → os_recv (sock s) (BUF - 1) (net_in s) = Some r →
        recv_n r < 0 → recv_errno r = EINTR →
     ∃ s', recv_step s = Some s' ∧
       s' = set_rpc RHead (emit [EvRecv (BUF - 1) (recv_n r)]
                             (set_net_in (recv_rest r) s)) ∧
       (running s' = true → recv_step s' = Some (set_rpc RRecv s')) ∧
       (running s' = false → recv_step s' = Some (set_rpc RDone s'))) ∧
  (∀ out sent to_send r, spc s = SSend out sent to_send → 0 < to_send →
        os_send (sock s) (offered out sent to_send) (net_out s)
        = Some (SendReturns r) →
        send_n r < 0 → send_errno r = EINTR →
     ∃ s', send_step s = Some s' ∧
       s' = emit [EvSend (offered out sent to_send) (send_n r)]
              (set_net_out (send_rest r) s) ∧
       spc s' = SSend out sent to_send ∧
       offered out sent to_send = drop (Z.to_nat sent) out).
Proof.
  intros Hfit s. split.
  - intros r Hpc Hos Hneg Herr.
    destruct (os_recv_spec _ _ _ _ Hos) as [_ [[Hn Hd]|Hn]]; [|lia].
    eexists. split; [|split; [reflexivity|]].
    + unfold recv_step. rewrite Hpc, Hos. f_equal. unfold recv_body.
      rewrite Hn, Hd, Herr. reflexivity.
    + unfold recv_step. fields. split; intros ->; reflexivity.
  - intros out sent to_send r Hpc Hpos Hos Hneg Herr.
    eexists. split; [|split; [reflexivity|]].
    + unfold send_step. rewrite Hpc.
      destruct (Z.ltb_spec 0 to_send); [|lia]. rewrite Hos. f_equal.
      unfold send_body. destruct (Z.ltb_spec (send_n r) 0); [|lia].
      rewrite Herr. reflexivity.
    + fields. split; [done|]. by eapply reachable_offered_rest.
Qed.

Lemma EINTR_is_silent_and_retried_witness :
  (∃ s', recv_step both_interrupted = Some s' ∧
     trace s' = trace both_interrupted ++ [EvRecv (BUF - 1) (-1)] ∧
     running s' = true ∧ recv_step s' = Some (set_rpc RRecv s')) ∧
  (∃ s', send_step both_interrupted = Some s' ∧
     spc s' = spc both_interrupted ∧ running s' = true ∧
     ∃ data, trace s' = trace both_interrupted ++ [EvSend data (-1)] ∧
             data = message (str "bob") (str "hi")).
Proof.
  destruct (EINTR_is_silent_and_retried (str "bob") [InErr EINTR]
              [OutErr EINTR] [ConsoleLine (str "hi")] [TRecv; TSend; TSend])
    as [Hr Hs]; [repeat constructor|].
  split.
  - destruct (Hr (RecvRet (-1) [] EINTR [])) as (s' & Hst & -> & Hgo & _);
      try reflexivity.
    eexists. split; [exact Hst|]. split; [reflexivity|].
    split; [reflexivity|]. apply Hgo. reflexivity.
  - destruct (Hs (message (str "bob") (str "hi")) 0 8 (SendRet (-1) EINTR []))
      as (s' & Hst & -> & Hpc & _); try reflexivity.
    eexists. split; [exact Hst|]. split; [exact Hpc|].
    split; [reflexivity|]. eexists. split; reflexivity.
Defined.

(** ** The supervising thread *)

Lemma endpoint_calls_app (a b : list event) :
  endpoint_calls (a ++ b) = endpoint_calls a ++ endpoint_calls b.
Proof. apply omap_app. Qed.

Lemma recv_step_main_frame (s s' : state) :
  recv_step s = Some s' → main_frame s s'.
Proof.
  unfold recv_step, recv_body, main_frame. intros H.
  repeat case_match; simplify_eq; fields; repeat split; auto;
    rewrite <- ?app_assoc;
    first [ done | by exists []; rewrite app_nil_r | by eexists ].
Qed.

(** A step of the outbound relay either leaves main alone or is the send
    on which SIGPIPE ends the process. *)
Lemma send_step_main_frame (s s' : state) :
  send_step s = Some s' →
  main_frame s s' ∨
  (s' = set_mpc MKilled (emit [EvSigpipe] s) ∧
   ∃ out sent to_send,
     spc s = SSend out sent to_send ∧
     os_send (sock s) (offered out sent to_send) (net_out s)
     = Some SendSigpipe).
Proof.
  unfold send_step, send_body, main_frame. intros H.
  destruct (spc s) as [| |out sent to_send|] eqn:Hpc; [| | |done].
  - left. destruct (running s) eqn:Hr; simplify_eq; fields;
      repeat split; auto;
      first [ done | by exists []; rewrite app_nil_r ].
  - left. destruct (console s) as [|[line|] q]; simplify_eq; fields;
      repeat split; auto; first [ done | by eexists ].
  - destruct (0 <? to_send).
    + destruct (os_send _ _ _) as [[r|]|] eqn:Hos; simplify_eq.
      * left. repeat case_match; fields; repeat split; auto;
          rewrite <- ?app_assoc; first [ done | by eexists ].
      * right. split; [done|]. by exists out, sent, to_send.
    + left. simplify_eq. fields. repeat split; auto;
        first [ done | by exists []; rewrite app_nil_r ].
Qed.

Lemma sigint_main_frame (s : state) : main_frame s (handle_sigint s).
Proof.
  unfold main_frame; fields. repeat split; auto.
  exists []. by rewrite app_nil_r.
Qed.

Lemma main_inv_frame (s s' : state) :
  exited s = false → main_frame s s' → main_inv s → main_inv s'.
Proof.
  intros Hex (Hm & Hk & Hr & Hrd & Hsd & evs & Htr & Hev).
  unfold main_inv. unfold exited in Hex.
  rewrite Hm, Hk, Htr, endpoint_calls_app, Hev, app_nil_r.
  destruct (mpc s); try done; intuition (subst; auto).
Qed.

Lemma main_step_inv (s s' : state) :
  main_inv s → main_step s = Some s' → main_inv s'.
Proof.
  unfold main_inv, main_step. intros Hinv Hst.
  destruct (mpc s) eqn:Hm.
  - destruct (running s) eqn:Hr; simplify_eq; fields; rewrite ?Hm; intuition (subst; auto).
  - simplify_eq; fields. rewrite endpoint_calls_app.
    destruct Hinv as (? & -> & ->). done.
  - simplify_eq; fields. rewrite endpoint_calls_app.
    destruct Hinv as (? & ? & ->). done.
  - destruct (spc s) eqn:Hs; simplify_eq; fields. intuition (subst; auto).
  - destruct (rpc s) eqn:Hs; simplify_eq; fields. intuition (subst; auto).
  - simplify_eq; fields. rewrite endpoint_calls_app. simpl.
    rewrite app_nil_r. intuition (subst; auto).
  - done.
  - done.
Qed.

Lemma main_inv_step (t : tid) (s s' : state) :
  main_inv s → step t s = Some s' → main_inv s'.
Proof.
  intros Hinv Hst. apply step_inv in Hst as [Hex [H|[H|[H| ->]]]].
  - by eapply main_step_inv.
  - by eapply main_inv_frame; [|apply recv_step_main_frame|].
  - apply send_step_main_frame in H as [H|(-> & out & sent & to_send & Hpc & Hos)].
    { by eapply main_inv_frame. }
    unfold main_inv in *. fields. rewrite endpoint_calls_app, app_nil_r.
    split; [|by eauto].
    unfold os_send in Hos.
    destruct (mpc s); try tauto;
      decompose [and] Hinv; clear Hinv;
      match goal with Hk : sock s = _ |- _ => rewrite Hk in Hos end; done.
  - by eapply main_inv_frame; [|apply sigint_main_frame|].
Qed.

Lemma session_main_inv (name : bytes) (nin : list in_event)
    (nout : list out_event) (con : list console_event) (sched : list tid) :
  main_inv (run sched (session name nin nout con)).
Proof. apply run_invariant; [apply main_inv_step | done]. Qed.

(** No step sets [running] again. *)
Lemma step_keeps_flag (t : tid) (s s' : state) :
  running s = false → step t s = Some s' → running s' = false.
Proof.
  intros Hr Hst. apply step_inv in Hst as [_ [H|[H|[H| ->]]]].
  - apply main_step_send_frame in H as (_ & _ & _ & _ & _ & Hk & _). auto.
  - apply recv_step_main_frame in H as (_ & _ & Hk & _). auto.
  - apply send_step_main_frame in H as [(_ & _ & Hk & _)|[-> _]]; auto.
  - done.
Qed.

(** ** The write loop *)






(** ** The shutdown flag *)

Lemma run_keeps_flag (sched : list tid) (s : state) :
  running s = false → running (run sched s) = false.
Proof.
  apply (run_invariant (λ s, running s = false)).
  intros t s1 s2. apply step_keeps_flag.
Qed.

Lemma quit_stops (name : bytes) (nin : list in_event) (nout : list out_event)
    (con : list console_event) :
  stopped (run quit (session name nin nout con)).
Proof. repeat split. Qed.

Lemma exit_is_stopped (s : state) (code : Z) :
  main_inv s → mpc s = MExit code →
  stopped s ∧ running s = false ∧
  endpoint_calls (trace s) = [EvShutdown; EvClose].
Proof.
  unfold main_inv, stopped. intros Hinv Hm. rewrite Hm in Hinv.
  destruct Hinv as (-> & ? & ? & ? & ? & ?). done.
Qed.

(** C7: the flag, once it says stop, says stop after every further step of
    any thread; the handler is idempotent, so that two requests leave the
    very state one request leaves; and whatever the number of requests made
    by the handler and the relays along an execution, an execution that
    ends is in the one Stopped state: both relays returned, the connection
    half-closed once and closed once, exit code 0. *)
Theorem shutdown_flag_monotone_idempotent (name : bytes)
    (nin : list in_event) (nout : list out_event) (con : list console_event)
    (sched : list tid) :
  (∀ s, running s = false → running (run sched s) = false) ∧
  (∀ t s s', running s = false → step t s = Some s' → running s' = false) ∧
  (∀ s, handle_sigint (handle_sigint s) = handle_sigint s) ∧
  (∀ s, run sched (handle_sigint (handle_sigint s))
        = run sched (handle_sigint s)) ∧
  (let s := run sched (session name nin nout con) in
   ∀ code, mpc s = MExit code →
     stopped s ∧ running s = false ∧
     endpoint_calls (trace s) = [EvShutdown; EvClose]) ∧
  stopped (run (TSigint :: quit) (session name nin nout con)).
Proof.
  split; [intros s; apply run_keeps_flag|].
  split; [intros t s s'; apply step_keeps_flag|].
  split; [reflexivity|]. split; [reflexivity|].
  split; [|repeat split].
  intros s code Hm.
  by apply (exit_is_stopped s code (session_main_inv name nin nout con sched)).
Qed.

(** ** Closing the connection *)

(** C1, as stated, fails: main closes the connection while recv_loop is
    still inside recv; it has not joined any thread yet. *)
Lemma close_before_relays_return :
  mpc (run input_ended_schedule input_ended_session) = MClose ∧
  rpc (run input_ended_schedule input_ended_session) = RRecv ∧
  endpoint_calls
    (trace (run (input_ended_schedule ++ [TMain]) input_ended_session))
    = [EvShutdown; EvClose] ∧
  rpc (run (input_ended_schedule ++ [TMain]) input_ended_session) = RRecv ∧
  mpc (run (input_ended_schedule ++ [TMain]) input_ended_session) = MJoinS.
Proof. vm_compute. done. Qed.

(** C1, amended: in every execution main's calls on the connection are a
    prefix of "half-close, close": the connection is closed at most once,
    after the half-close, with the flag set, and without waiting for the
    relays; the joins follow the close, so that main has returned only
    when both relays have returned and the connection has been closed
    exactly once. *)
Theorem endpoint_closed_once_before_joins (name : bytes)
    (nin : list in_event) (nout : list out_event) (con : list console_event)
    (sched : list tid) :
  let s := run sched (session name nin nout con) in
  (endpoint_calls (trace s) = [] ∨
   endpoint_calls (trace s) = [EvShutdown] ∨
   endpoint_calls (trace s) = [EvShutdown; EvClose]) ∧
  (mpc s = MClose →
     running s = false ∧
     step TMain s = Some (set_mpc MJoinS (emit [EvClose] (set_sock SockClosed s)))) ∧
  (mpc s = MJoinS ∨ mpc s = MJoinR →
     endpoint_calls (trace s) = [EvShutdown; EvClose]) ∧
  (∀ code, mpc s = MExit code →
     rpc s = RDone ∧ spc s = SDone ∧
     endpoint_calls (trace s) = [EvShutdown; EvClose]).
Proof.
  intros s. pose proof (session_main_inv name nin nout con sched) as Hinv.
  fold s in Hinv. unfold main_inv in Hinv.
  split; [|split; [|split]].
  - destruct (mpc s); intuition auto.
  - intros Hm. rewrite Hm in Hinv. split; [tauto|].
    unfold step, exited, main_step. by rewrite Hm.
  - intros [Hm|Hm]; rewrite Hm in Hinv; tauto.
  - intros code Hm. rewrite Hm in Hinv. tauto.
Qed.

(** ** A zero-length read *)

Lemma silent_console_never_stops (sched : list tid) (s : state) :
  main_inv s → waits_on_silent_console s → ¬ stopped (run sched s).
Proof.
  intros Hinv Hw.
  cut (main_inv (run sched s) ∧ waits_on_silent_console (run sched s)).
  { intros [_ [Hpc _]] (_ & _ & Hs & _). congruence. }
  apply (run_invariant (λ s, main_inv s ∧ waits_on_silent_console s)); [|done].
  clear. intros t s s' [Hinv [Hpc Hcon]] Hst.
  split; [by eapply main_inv_step|].
  apply step_inv in Hst as [_ [H|[H|[H| ->]]]].
  - apply main_step_send_frame in H as (Hs & _ & _ & Hc & _).
    split; congruence.
  - apply recv_step_send_frame in H as (Hs & _ & _ & Hc & _).
    split; congruence.
  - unfold send_step in H. rewrite Hpc, Hcon in H. done.
  - done.
Qed.

(** C6, the code at the failing input: the peer closes while the outbound
    relay is inside getline and the console stays silent.  The zero-length
    read makes the inbound relay print the notice, set the flag and return,
    as the claim says; but the session does not reach Stopped under any
    schedule: the half-close does not release getline, and main waits in
    s.join(). *)
Lemma peer_close_alone_does_not_stop :
  trace (run [TSend; TRecv; TRecv] peer_closed_session)
  = [EvRecv (BUF - 1) 0; EvWrite Cerr (str "Connection closed by peer");
     EvWrite Cerr [newline]; EvFlush Cerr] ∧
  running (run [TSend; TRecv; TRecv] peer_closed_session) = false ∧
  rpc (run [TSend; TRecv; TRecv] peer_closed_session) = RDone ∧
  ∀ sched, ¬ stopped (run sched (run [TSend; TRecv; TRecv] peer_closed_session)).
Proof.
  split; [reflexivity|]. split; [reflexivity|]. split; [reflexivity|].
  intros sched. apply silent_console_never_stops.
  - apply (session_main_inv (str "bob") [InFin] [] [] [TSend; TRecv; TRecv]).
  - split; reflexivity.
Qed.

(** With the flag set the outbound relay never enters getline again. *)
Lemma send_step_not_getline (s s' : state) :
  running s = false → send_step s = Some s' → spc s' ≠ SGetline.
Proof.
  unfold send_step, send_body. intros Hr H.
  repeat case_match; simplify_eq; fields; congruence.
Qed.

Lemma run_exited (sched : list tid) (s : state) :
  exited s = true → run sched s = s.
Proof.
  intros Hex. induction sched as [|t sched IH]; simpl; [done|].
  unfold step. by rewrite Hex.
Qed.

Lemma killed_stays (sched : list tid) (s : state) :
  mpc s = MKilled → run sched s = s.
Proof. intros Hm. apply run_exited. unfold exited. by rewrite Hm. Qed.

Lemma main_step_rpc (s s' : state) : main_step s = Some s' → rpc s' = rpc s.
Proof.
  unfold main_step. intros H. repeat case_match; simplify_eq; fields; done.
Qed.

Lemma winding_down_step (t : tid) (s s' : state) :
  winding_down s → step t s = Some s' → winding_down s'.
Proof.
  intros (Hinv & Hr & Hrd & Hs) Hst.
  split; [by eapply main_inv_step|]. split; [by eapply step_keeps_flag|].
  apply step_inv in Hst as [_ [H|[H|[H| ->]]]].
  - split; [by rewrite (main_step_rpc _ _ H)|].
    apply main_step_send_frame in H as (-> & _ & _ & -> & _). done.
  - unfold recv_step in H. by rewrite Hrd in H.
  - split; [|left; by eapply send_step_not_getline].
    by apply send_step_main_frame in H as [(_ & _ & _ & Hk & _)|[-> _]]; auto.
  - done.
Qed.

(** Three steps of main with the flag set: the connection is closed. *)
Lemma main_reaches_join (s : state) :
  main_inv s → running s = false → mpc s ≠ MKilled →
  sock (run [TMain; TMain; TMain] s) = SockClosed ∧
  rpc (run [TMain; TMain; TMain] s) = rpc s ∧
  spc (run [TMain; TMain; TMain] s) = spc s ∧
  console (run [TMain; TMain; TMain] s) = console s ∧
  mpc (run [TMain; TMain; TMain] s) ≠ MPoll ∧
  mpc (run [TMain; TMain; TMain] s) ≠ MShutdown ∧
  mpc (run [TMain; TMain; TMain] s) ≠ MClose ∧
  mpc (run [TMain; TMain; TMain] s) ≠ MKilled.
Proof.
  unfold main_inv. intros Hinv Hr Halive.
  destruct s as [nm rn sk rp bf sp mp ni no cn wi tr]. simpl in *. subst rn.
  destruct mp; try done; destruct sp; destruct rp; cbn; intuition congruence.
Qed.

Lemma message_nonempty (name line : bytes) :
  (0 <? Z.of_nat (length (message name line))) = true.
Proof.
  apply Z.ltb_lt. unfold message. rewrite !length_app. simpl. lia.
Qed.

Lemma send_step_closed (s : state) (n : nat) :
  sock s = SockClosed → running s = false → send_rank s = Some (S n) →
  ∃ s', send_step s = Some s' ∧ send_rank s' = Some n ∧
        sock s' = SockClosed ∧ running s' = false ∧
        mpc s' = mpc s ∧ rpc s' = rpc s.
Proof.
  unfold send_rank, send_step. intros Hk Hr Hrank.
  destruct (spc s) as [| |out sent to_send|] eqn:Hpc.
  - rewrite Hr. eexists. split; [done|]. fields. by simplify_eq.
  - destruct (console s) as [|[line|] q] eqn:Hcon; [done| |].
    + eexists. split; [done|]. fields.
      rewrite message_nonempty. by simplify_eq.
    + eexists. split; [done|]. fields. by simplify_eq.
  - destruct (0 <? to_send) eqn:Hpos.
    + rewrite Hk. cbn. eexists. split; [done|]. fields. by simplify_eq.
    + eexists. split; [done|]. fields. by simplify_eq.
  - done.
Qed.

(** Two steps of the outbound relay on the closed connection. *)
Lemma send_returns (s : state) :
  sock s = SockClosed → running s = false → exited s = false →
  spc s ≠ SGetline ∨ console s ≠ [] →
  spc (run [TSend; TSend] s) = SDone ∧
  mpc (run [TSend; TSend] s) = mpc s ∧ rpc (run [TSend; TSend] s) = rpc s.
Proof.
  intros Hk Hr Hex Hgo.
  assert (∃ n, send_rank s = Some n ∧ (n ≤ 2)%nat) as (n & Hn & Hle).
  { unfold send_rank. destruct (spc s) eqn:Hpc.
    - eexists; split; [reflexivity | lia].
    - destruct Hgo as [|Hc]; [done|].
      destruct (console s) as [|[|] ?]; [done| |];
        eexists; (split; [reflexivity | lia]).
    - case_match; eexists; (split; [reflexivity | lia]).
    - eexists; split; [reflexivity | lia]. }
  assert (∀ s, spc s = SDone → step TSend s = None) as Hdone.
  { clear. intros s Hs. unfold step, send_step. rewrite Hs. by case_match. }
  assert (∀ s, send_rank s = Some 0%nat → step TSend s = None) as Hzero.
  { clear -Hdone. intros s Hs. apply Hdone. revert Hs. unfold send_rank.
    repeat case_match; intros; simplify_eq; done. }
  assert (∀ s, send_rank s = Some 0%nat → spc s = SDone) as Hspc.
  { clear. intros s. unfold send_rank.
    repeat case_match; intros; simplify_eq; done. }
  assert (∀ s, exited s = false → step TSend s = send_step s) as Hstep.
  { clear. intros s Hs. unfold step. by rewrite Hs. }
  rewrite !run_cons, run_nil.
  destruct n as [|n].
  { rewrite (Hzero s Hn). simpl. rewrite (Hzero s Hn). simpl. auto. }
  destruct (send_step_closed s n Hk Hr Hn)
    as (s1 & Hst & Hn1 & Hk1 & Hr1 & Hm1 & Hrp1).
  rewrite (Hstep s Hex), Hst. simpl.
  destruct n as [|n].
  { rewrite (Hzero s1 Hn1). simpl. auto. }
  destruct (send_step_closed s1 n Hk1 Hr1 Hn1)
    as (s2 & Hst2 & Hn2 & _ & _ & Hm2 & Hrp2).
  assert (exited s1 = false) as Hex1 by (unfold exited in *; by rewrite Hm1).
  rewrite (Hstep s1 Hex1), Hst2. simpl.
  assert (n = 0%nat) as -> by lia.
  split; [auto|]. split; congruence.
Qed.

(** Three steps of main once both relays have returned. *)
Lemma main_returns (s : state) :
  main_inv s → rpc s = RDone → spc s = SDone →
  mpc s ≠ MPoll → mpc s ≠ MShutdown → mpc s ≠ MClose →
  stopped (run [TMain; TMain; TMain] s).
Proof.
  unfold main_inv, stopped. intros Hinv Hrp Hsp H1 H2 H3.
  destruct s as [nm rn sk rp bf sp mp ni no cn wi tr]. simpl in *. subst rp sp.
  destruct mp; try done; cbn; try (intuition congruence).
  by destruct Hinv as (_ & ? & ? & ? & ?).
Qed.

(** From a state that winds down the process comes to its end: the
    session is Stopped, unless SIGPIPE has ended the process before. *)
Lemma finish_ends (s : state) : winding_down s → ended (run finish s).
Proof.
  intros (Hinv & Hr & Hrd & Hgo).
  assert (mpc s = MKilled ∨ mpc s ≠ MKilled) as [Hd|Halive]
    by (destruct (mpc s); (by left) || (by right)).
  { right. by rewrite killed_stays. }
  left.
  change finish with ([TMain; TMain; TMain] ++ [TSend; TSend] ++ [TMain; TMain; TMain]).
  rewrite !run_app.
  destruct (main_reaches_join s Hinv Hr Halive)
    as (Hk & Hrp & Hsp & Hc & H1 & H2 & H3 & H4).
  set (s1 := run [TMain; TMain; TMain] s) in *.
  assert (main_inv s1) as Hinv1
    by (by apply run_invariant; [apply main_inv_step|]).
  assert (running s1 = false) as Hr1 by (by apply run_keeps_flag).
  destruct (exited s1) eqn:Hex.
  - rewrite (run_exited [TSend; TSend] s1 Hex),
      (run_exited [TMain; TMain; TMain] s1 Hex).
    unfold exited in Hex. destruct (mpc s1) eqn:Hm; try done.
    by apply (exit_is_stopped s1 code).
  - destruct (send_returns s1 Hk Hr1 Hex) as (Hsd & Hm2 & Hrp2).
    { by rewrite Hsp, Hc. }
    set (s2 := run [TSend; TSend] s1) in *.
    apply main_returns; try congruence.
    by apply run_invariant; [apply main_inv_step|].
Qed.

(** When the process is gone the outbound relay has returned or was
    inside the write loop. *)
Lemma exited_spc (s : state) :
  main_inv s → exited s = true →
  spc s = SDone ∨ ∃ out sent to_send, spc s = SSend out sent to_send.
Proof.
  unfold main_inv, exited. destruct (mpc s); try done; tauto.
Qed.

(** ** Exit codes *)

Lemma connect_loop_fail (l : list addrinfo) :
  Forall candidate_fails l → (connect_loop l).1 = -1.
Proof.
  induction 1 as [|a l Ha Hl IH]; simpl; [done|].
  destruct (Z.eqb_spec (ai_socket a) (-1)); [done|].
  destruct (Z.eqb_spec (ai_connect a) 0).
  - destruct Ha; congruence.
  - by destruct (connect_loop l).
Qed.

Lemma connect_loop_ok (l : list addrinfo) :
  ¬ Forall candidate_fails l →
  ∃ a, a ∈ l ∧ (connect_loop l).1 = ai_socket a ∧ ai_socket a ≠ -1.
Proof.
  induction l as [|a l IH]; intros Hn; [by destruct Hn|]. simpl.
  destruct (Z.eqb_spec (ai_socket a) (-1)) as [Hs|Hs].
  - destruct IH as (b & Hb & Hr & Hne).
    { intros Hl. apply Hn. constructor; [by left | done]. }
    exists b. split; [by right | done].
  - destruct (Z.eqb_spec (ai_connect a) 0) as [Hc|Hc].
    + exists a. split; [by left | done].
    + destruct IH as (b & Hb & Hr & Hne).
      { intros Hl. apply Hn. constructor; [by right | done]. }
      exists b. split; [by right|].
      by destruct (connect_loop l).
Qed.

#[local] Arguments connect_loop : simpl never.

Lemma argc_lt (argv : list bytes) (n : nat) :
  (Z.of_nat (length argv) <? Z.of_nat n) = bool_decide (length argv < n)%nat.
Proof.
  destruct (Z.ltb_spec (Z.of_nat (length argv)) (Z.of_nat n));
    [rewrite bool_decide_eq_true_2 | rewrite bool_decide_eq_false_2]; lia.
Qed.

(** Every return of main before the threads start returns 1. *)
Lemma main_setup_exit_code (argv : list bytes) (os : os_setup) (code : Z)
    (out : list event) :
  main_setup argv os = SetupExit code out → code = 1.
Proof.
  unfold main_setup. intros H.
  repeat case_match; simplify_eq; done.
Qed.

Lemma main_setup_fails (argv : list bytes) (os : os_setup) :
  establishment_failure argv os → ∃ out, main_setup argv os = SetupExit 1 out.
Proof.
  unfold establishment_failure, main_setup, create_server_socket,
    create_client_socket.
  change 2 with (Z.of_nat 2). change 3 with (Z.of_nat 3). rewrite !argc_lt.
  intros Hf.
  destruct (bool_decide (length argv < 2)%nat) eqn:E2; [by eexists|].
  apply bool_decide_eq_false in E2.
  destruct (bool_decide (length argv < 3)%nat) eqn:E3.
  { destruct (bytes_eqb _ _); by eexists. }
  apply bool_decide_eq_false in E3.
  destruct Hf as [Hf|[Hf|Hf]]; [lia| |].
  - destruct (Z.eqb_spec (gai_ret os) 0); [done|]. simpl.
    destruct (bytes_eqb _ _); by eexists.
  - destruct (Z.eqb_spec (gai_ret os) 0); simpl;
      [|destruct (bytes_eqb _ _); by eexists].
    destruct (bytes_eqb _ _).
    + destruct (Z.ltb_spec (ai_socket (gai_res os)) 0); simpl; [by eexists|].
      destruct (Z.eqb_spec (ai_bind (gai_res os)) 0); simpl; [|by eexists].
      destruct (Z.eqb_spec (listen_ret os) 0); simpl; [|by eexists].
      destruct (Z.ltb_spec (ai_socket (gai_res os)) 0); [lia|].
      destruct (Z.ltb_spec (accept_ret os) 0); [by eexists|].
      lia.
    + apply connect_loop_fail in Hf.
      destruct (connect_loop (gai_res os :: gai_next os)) as [sfd evs].
      simpl in Hf. subst sfd. simpl. by eexists.
Qed.

Lemma main_setup_ok (argv : list bytes) (os : os_setup) :
  posix_sockets os → ¬ establishment_failure argv os →
  ∃ fd name out, main_setup argv os = SetupOk fd name out ∧ 0 ≤ fd.
Proof.
  unfold establishment_failure, main_setup, create_server_socket,
    create_client_socket.
  change 2 with (Z.of_nat 2). change 3 with (Z.of_nat 3). rewrite !argc_lt.
  intros Hposix Hf.
  assert (¬ (length argv < 3)%nat) as H3 by tauto.
  rewrite !bool_decide_eq_false_2 by lia.
  destruct (Z.eqb_spec (gai_ret os) 0) as [Hg|Hg]; [|tauto]. simpl.
  destruct (bytes_eqb _ _).
  - destruct (Z.ltb_spec (ai_socket (gai_res os)) 0); [tauto|]. simpl.
    destruct (Z.eqb_spec (ai_bind (gai_res os)) 0); [|tauto]. simpl.
    destruct (Z.eqb_spec (listen_ret os) 0); [|tauto]. simpl.
    destruct (Z.ltb_spec (ai_socket (gai_res os)) 0); [lia|].
    destruct (Z.ltb_spec (accept_ret os) 0); [tauto|].
    by eexists _, _, _.
  - destruct (connect_loop_ok (gai_res os :: gai_next os)) as (a & Ha & Hr & Hne);
      [tauto|].
    unfold posix_sockets in Hposix. rewrite Forall_forall in Hposix.
    specialize (Hposix a Ha).
    destruct (connect_loop (gai_res os :: gai_next os)) as [sfd evs].
    simpl in Hr. subst sfd.
    destruct (Z.eqb_spec (ai_socket a) (-1)); [done|].
    destruct (Z.ltb_spec (ai_socket a) 0); [lia|].
    by eexists _, _, _.
Qed.

(** C9: main returns 1 on every establishment failure (before any thread
    is started), and otherwise the connection is established and main
    returns nothing but 0: it has returned 0 exactly when the session is
    Stopped, and a request to stop always lets it get there.  No return
    of main before the threads start gives another value than 1. *)
Theorem exit_code_by_outcome (argv : list bytes) (os : os_setup)
    (nin : list in_event) (nout : list out_event) (con : list console_event)
    (sched : list tid) :
  posix_sockets os →
  (establishment_failure argv os →
     exit_code argv os nin nout con sched = Some 1) ∧
  (¬ establishment_failure argv os →
     ∃ fd name out,
       main_setup argv os = SetupOk fd name out ∧ 0 ≤ fd ∧
       (exit_code argv os nin nout con sched = Some 0
        ↔ stopped (run sched (session name nin nout con))) ∧
       (∀ code, exit_code argv os nin nout con sched = Some code → code = 0) ∧
       exit_code argv os nin nout con quit = Some 0) ∧
  (∀ code out, main_setup argv os = SetupExit code out → code = 1).
Proof.
  intros Hposix. split; [|split; [|apply main_setup_exit_code]].
  - intros Hf. destruct (main_setup_fails argv os Hf) as [out Hs].
    unfold exit_code. by rewrite Hs.
  - intros Hok.
    destruct (main_setup_ok argv os Hposix Hok) as (fd & name & out & Hs & Hfd).
    exists fd, name, out. split; [done|]. split; [done|].
    unfold exit_code. rewrite Hs.
    pose proof (session_main_inv name nin nout con sched) as Hinv.
    split; [|split].
    + split.
      * destruct (mpc (run sched (session name nin nout con))) eqn:Hm; try done.
        intros _. by apply (exit_is_stopped _ _ Hinv Hm).
      * intros (-> & _). done.
    + intros code.
      destruct (mpc (run sched (session name nin nout con))) eqn:Hm; try done.
      intros ?; simplify_eq.
      destruct (exit_is_stopped _ _ Hinv Hm) as [(Hm' & _) _]. congruence.
    + reflexivity.
Qed.

Lemma exit_code_by_outcome_witness :
  exit_code dial_argv dial_refused [] [] [] quit = Some 1 ∧
  exit_code dial_argv dial_ok [] [] [] quit = Some 0 ∧
  stopped (run quit (session (str "bob") [] [] [])).
Proof.
  split; [|split].
  - apply (exit_code_by_outcome dial_argv dial_refused [] [] [] quit).
    + repeat constructor; discriminate.
    + right. right. cbn. constructor; [right; discriminate | constructor].
  - destruct (exit_code_by_outcome dial_argv dial_ok [] [] [] quit)
      as (_ & Hok & _); [repeat constructor; discriminate|].
    destruct Hok as (fd & name & out & _ & _ & _ & _ & Hq); [|exact Hq].
    intros [Hf|[Hf|Hf]]; [vm_compute in Hf; lia | done |].
    apply Forall_cons in Hf as [[Hf|Hf] _]; [discriminate | by apply Hf].
  - destruct (exit_code_by_outcome dial_argv dial_ok [] [] [] quit)
      as (_ & Hok & _); [repeat constructor; discriminate|].
    destruct Hok as (fd & name & out & Hs & _ & Hiff & _ & Hq).
    + intros [Hf|[Hf|Hf]]; [vm_compute in Hf; lia | done |].
      apply Forall_cons in Hf as [[Hf|Hf] _]; [discriminate | by apply Hf].
    + vm_compute in Hs. simplify_eq. by apply Hiff.
Defined.

(** ** Descriptors opened while the connection is established *)

Lemma connect_loop_cons (a : addrinfo) (l : list addrinfo) :
  connect_loop (a :: l)
  = if ai_socket a =? -1 then connect_loop l
    else if ai_connect a =? 0 then (ai_socket a, [])
    else let '(r, evs) := connect_loop l in (r, EvCloseFd (ai_socket a) :: evs).
Proof. reflexivity. Qed.

Lemma opened_cons (a : addrinfo) (l : list addrinfo) :
  opened (a :: l)
  = if ai_socket a =? -1 then opened l else ai_socket a :: opened l.
Proof. unfold opened. simpl. by destruct (ai_socket a =? -1). Qed.

Lemma connect_loop_first (l1 l2 : list addrinfo) (a : addrinfo) :
  Forall candidate_fails l1 → ai_socket a ≠ -1 → ai_connect a = 0 →
  connect_loop (l1 ++ a :: l2) = (ai_socket a, EvCloseFd <$> opened l1).
Proof.
  intros Hl Hs Hc. induction Hl as [|c l1 Hfail Hl IH]; simpl app.
  - rewrite connect_loop_cons.
    destruct (Z.eqb_spec (ai_socket a) (-1)); [done|].
    destruct (Z.eqb_spec (ai_connect a) 0); done.
  - rewrite connect_loop_cons, opened_cons, IH.
    destruct (Z.eqb_spec (ai_socket c) (-1)); [done|].
    destruct (Z.eqb_spec (ai_connect c) 0); [|done].
    destruct Hfail; congruence.
Qed.

Lemma connect_loop_none (l : list addrinfo) :
  Forall candidate_fails l → connect_loop l = (-1, EvCloseFd <$> opened l).
Proof.
  induction 1 as [|c l Hfail Hl IH]; [done|].
  rewrite connect_loop_cons, opened_cons, IH.
  destruct (Z.eqb_spec (ai_socket c) (-1)); [done|].
  destruct (Z.eqb_spec (ai_connect c) 0); [|done].
  destruct Hfail; congruence.
Qed.

(** X1: the dialer takes the first candidate address on which socket and
    connect both succeed: it returns that socket, closes every socket it
    had opened for an earlier candidate, in order, reports no error and
    does not touch the candidates behind it. *)
Theorem create_client_socket_first_success (host port_str : bytes)
    (os : os_setup) (l1 l2 : list addrinfo) (a : addrinfo) :
  gai_ret os = 0 → gai_res os :: gai_next os = l1 ++ a :: l2 →
  Forall candidate_fails l1 → ai_socket a ≠ -1 → ai_connect a = 0 →
  create_client_socket host port_str os
  = (ai_socket a, EvCloseFd <$> opened l1).
Proof.
  intros Hg Hl Hfail Hs Hc. unfold create_client_socket.
  rewrite Hg, Hl, (connect_loop_first l1 l2 a Hfail Hs Hc). simpl.
  by destruct (Z.eqb_spec (ai_socket a) (-1)).
Qed.

Lemma create_client_socket_first_success_witness :
  create_client_socket (str "127.0.0.1") (str "9001") dial_second
  = (4, [EvCloseFd 3]).
Proof.
  apply (create_client_socket_first_success (str "127.0.0.1") (str "9001")
           dial_second [AddrInfo 3 0 (-1)] [AddrInfo 5 0 0] (AddrInfo 4 0 0));
    try reflexivity; try discriminate.
  constructor; [right; discriminate | constructor].
Defined.

(** X2: when no candidate address can be connected, the dialer returns -1,
    has closed every socket it opened, and reports "connect" once, after
    the last attempt. *)
Theorem create_client_socket_all_fail (host port_str : bytes) (os : os_setup) :
  gai_ret os = 0 → Forall candidate_fails (gai_res os :: gai_next os) →
  create_client_socket host port_str os
  = (-1, (EvCloseFd <$> opened (gai_res os :: gai_next os))
           ++ [EvPerror (str "connect") (setup_errno os)]).
Proof.
  intros Hg Hfail. unfold create_client_socket.
  by rewrite Hg, (connect_loop_none _ Hfail).
Qed.

Lemma create_client_socket_all_fail_witness :
  create_client_socket (str "127.0.0.1") (str "9001") dial_refused
  = (-1, [EvCloseFd 3; EvPerror (str "connect") 111]).
Proof.
  apply (create_client_socket_all_fail (str "127.0.0.1") (str "9001")
           dial_refused); [reflexivity|].
  constructor; [right; discriminate | constructor].
Defined.

Lemma fd_closes_app (a b : list event) :
  fd_closes (a ++ b) = fd_closes a ++ fd_closes b.
Proof. apply omap_app. Qed.

(** X3: as listener, once socket() has handed out the listening socket,
    main closes it exactly once before it starts the threads or returns,
    whether bind, listen or accept fail or the peer is accepted, and
    closes no other descriptor. *)
Theorem listener_closes_listening_socket (argv : list bytes) (os : os_setup) :
  bytes_eqb (arg argv 1) (str "--listen") = true → (3 ≤ length argv)%nat →
  gai_ret os = 0 → 0 ≤ ai_socket (gai_res os) →
  fd_closes (setup_out (main_setup argv os)) = [ai_socket (gai_res os)].
Proof.
  intros Hl Hargc Hg Hs.
  unfold main_setup, create_server_socket.
  change 2 with (Z.of_nat 2). change 3 with (Z.of_nat 3). rewrite !argc_lt.
  rewrite !bool_decide_eq_false_2 by lia. rewrite Hl, Hg. simpl.
  destruct (Z.ltb_spec (ai_socket (gai_res os)) 0); [lia|]. simpl.
  destruct (ai_bind (gai_res os) =? 0); simpl; [|done].
  destruct (listen_ret os =? 0); simpl; [|done].
  destruct (Z.ltb_spec (ai_socket (gai_res os)) 0); [lia|].
  destruct (accept_ret os <? 0); simpl; done.
Qed.

Lemma listener_closes_listening_socket_witness :
  fd_closes (setup_out (main_setup listen_argv bind_refused)) = [3].
Proof.
  apply (listener_closes_listening_socket listen_argv bind_refused);
    try reflexivity; vm_compute; [lia | discriminate].
Defined.

(** ** Arguments *)

Lemma arg_app (argv extra : list bytes) (i : nat) :
  (i < length argv)%nat → arg (argv ++ extra) i = arg argv i.
Proof. intros Hi. unfold arg. by rewrite lookup_app_l. Qed.

(** X4: the name attached to outgoing lines is the fourth argument when
    there is one, and otherwise "server" for the listener and "host" for
    the dialer. *)
Theorem display_name_default (argv : list bytes) (os : os_setup) (fd : Z)
    (name : bytes) (out : list event) :
  main_setup argv os = SetupOk fd name out →
  name = if bool_decide (4 ≤ length argv)%nat then arg argv 3
         else if bytes_eqb (arg argv 1) (str "--listen") then str "server"
         else str "host".
Proof.
  unfold main_setup.
  assert ((4 <=? Z.of_nat (length argv)) = bool_decide (4 ≤ length argv)%nat)
    as ->.
  { destruct (Z.leb_spec 4 (Z.of_nat (length argv)));
      [rewrite bool_decide_eq_true_2 | rewrite bool_decide_eq_false_2]; lia. }
  intros H. repeat case_match; simplify_eq; done.
Qed.

Lemma display_name_default_witness :
  str "host" = if bool_decide (4 ≤ length [str "connector"; str "127.0.0.1"; str "9001"])%nat
               then arg [str "connector"; str "127.0.0.1"; str "9001"] 3
               else if bytes_eqb (arg [str "connector"; str "127.0.0.1"; str "9001"] 1)
                                 (str "--listen")
                    then str "server" else str "host".
Proof.
  apply (display_name_default [str "connector"; str "127.0.0.1"; str "9001"]
           dial_ok 3 (str "host")
           [EvWrite Cout (str "Connected to "); EvWrite Cout (str "127.0.0.1");
            EvWrite Cout (str ":"); EvWrite Cout (str "9001");
            EvWrite Cout [newline]; EvFlush Cout]).
  reflexivity.
Defined.

(** X5: arguments behind the name are ignored: with at least four arguments
    main does the same whatever follows them. *)
Theorem extra_arguments_ignored (argv extra : list bytes) (os : os_setup) :
  (4 ≤ length argv)%nat →
  main_setup (argv ++ extra) os = main_setup argv os.
Proof.
  intros Hargc. unfold main_setup.
  rewrite !arg_app by lia.
  assert (∀ l : list bytes, (4 ≤ length l)%nat →
            (Z.of_nat (length l) <? 2) = false ∧
            (Z.of_nat (length l) <? 3) = false ∧
            (4 <=? Z.of_nat (length l)) = true) as Hcmp.
  { intros l Hl. repeat split; [apply Z.ltb_ge | apply Z.ltb_ge | apply Z.leb_le]; lia. }
  destruct (Hcmp argv Hargc) as (-> & -> & ->).
  destruct (Hcmp (argv ++ extra)) as (-> & -> & ->); [rewrite length_app; lia|].
  reflexivity.
Qed.

Lemma extra_arguments_ignored_witness :
  main_setup (dial_argv ++ [str "more"; str "words"]) dial_ok
  = main_setup dial_argv dial_ok.
Proof.
  apply (extra_arguments_ignored dial_argv [str "more"; str "words"] dial_ok).
  vm_compute. lia.
Defined.

(** X6: with fewer than three arguments main returns 1 before it makes any
    system call: the outcome does not depend on what the system would
    answer, and everything it writes goes to cerr. *)
Theorem missing_arguments_rejected_first (argv : list bytes)
    (os os' : os_setup) :
  (length argv < 3)%nat →
  main_setup argv os = main_setup argv os' ∧
  ∃ out, main_setup argv os = SetupExit 1 out ∧
         out ≠ [] ∧ Forall (λ e, ∃ t, e = EvWrite Cerr t) out.
Proof.
  intros Hargc. unfold main_setup.
  change 2 with (Z.of_nat 2). change 3 with (Z.of_nat 3). rewrite !argc_lt.
  destruct (bool_decide (length argv < 2)%nat).
  { split; [done|]. eexists. split; [done|]. split; [done|].
    repeat constructor; by eexists. }
  rewrite bool_decide_eq_true_2 by done.
  destruct (bytes_eqb _ _);
    (split; [done|]; eexists; split; [done|]; split; [done|];
     repeat constructor; by eexists).
Qed.

Lemma missing_arguments_rejected_first_witness :
  main_setup [str "connector"; str "--listen"] dial_ok
  = main_setup [str "connector"; str "--listen"] dial_refused ∧
  ∃ out, main_setup [str "connector"; str "--listen"] dial_ok = SetupExit 1 out ∧
         out ≠ [] ∧ Forall (λ e, ∃ t, e = EvWrite Cerr t) out.
Proof.
  apply (missing_arguments_rejected_first [str "connector"; str "--listen"]
           dial_ok dial_refused).
  vm_compute. lia.
Defined.

(** ** Either relay ends the session *)

Lemma returned_with_flag_step (t : tid) (s s' : state) :
  returned_with_flag s → step t s = Some s' → returned_with_flag s'.
Proof.
  intros [Hr Hs] Hst. apply step_inv in Hst as [_ [H|[H|[H| ->]]]].
  - pose proof (main_step_rpc _ _ H) as Hrpc.
    apply main_step_send_frame in H as (Hspc & _ & _ & _ & _ & Hk & _).
    split; intros Hd; apply Hk; [apply Hr | apply Hs]; congruence.
  - unfold recv_step, recv_body in H. unfold returned_with_flag.
    repeat case_match; simplify_eq; fields; intuition congruence.
  - unfold send_step, send_body in H. unfold returned_with_flag.
    repeat case_match; simplify_eq; fields; intuition congruence.
  - done.
Qed.

Lemma session_returned_with_flag (name : bytes) (nin : list in_event)
    (nout : list out_event) (con : list console_event) (sched : list tid) :
  returned_with_flag (run sched (session name nin nout con)).
Proof. apply run_invariant; [apply returned_with_flag_step | done]. Qed.

(** X7: in every execution a relay that has returned has left the
    shutdown flag set: neither recv_loop nor send_loop ever returns with
    [running] still true, so the return of one relay is always seen by main
    and by the other relay. *)
Theorem returned_relay_has_set_flag (name : bytes) (nin : list in_event)
    (nout : list out_event) (con : list console_event) (sched : list tid) :
  let s := run sched (session name nin nout con) in
  (rpc s = RDone → running s = false) ∧ (spc s = SDone → running s = false).
Proof. apply session_returned_with_flag. Qed.

(** On the closed connection a recv in flight returns at once, and if it
    hands out bytes the relay goes back to the loop head. *)
Lemma recv_step_closed (s : state) :
  sock s = SockClosed → rpc s = RRecv →
  ∃ s', recv_step s = Some s' ∧ (rpc s' = RDone ∨ rpc s' = RHead).
Proof.
  intros Hk Hpc. unfold recv_step, os_recv. rewrite Hpc, Hk.
  destruct (net_in s) as [|[bs| |e] q]; eexists; (split; [reflexivity|]);
    unfold recv_body; repeat case_match; fields; auto.
Qed.

(** Two steps of the inbound relay on the closed connection. *)
Lemma recv_returns (s : state) :
  sock s = SockClosed → running s = false → exited s = false →
  rpc (run [TRecv; TRecv] s) = RDone ∧ mpc (run [TRecv; TRecv] s) = mpc s ∧
  spc (run [TRecv; TRecv] s) = spc s.
Proof.
  intros Hk Hr Hex.
  assert (∀ s, rpc s = RDone → step TRecv s = None) as Hdone.
  { clear. intros s Hs. unfold step, recv_step. rewrite Hs. by case_match. }
  assert (∀ s, exited s = false → rpc s = RHead → running s = false →
            step TRecv s = Some (set_rpc RDone s)) as Hhead.
  { clear. intros s Hex Hs Hr. unfold step, recv_step. by rewrite Hex, Hs, Hr. }
  rewrite !run_cons, run_nil.
  destruct (rpc s) eqn:Hpc.
  - rewrite (Hhead s Hex Hpc Hr). simpl. rewrite Hdone by done. done.
  - destruct (recv_step_closed s Hk Hpc) as (s1 & Hst & Hrp).
    destruct (recv_step_main_frame s s1 Hst) as (Hm & _ & Hflag & _).
    pose proof (recv_step_send_frame s s1 Hst) as (Hsp & _).
    assert (step TRecv s = Some s1) as ->
      by (unfold step; by rewrite Hex).
    simpl.
    destruct Hrp as [Hrp|Hrp].
    + rewrite Hdone by done. done.
    + rewrite Hhead; [done| |done|by auto].
      unfold exited in *. by rewrite Hm.
  - rewrite !Hdone by done. done.
Qed.

Lemma winding_down_inbound_step (t : tid) (s s' : state) :
  winding_down_inbound s → step t s = Some s' → winding_down_inbound s'.
Proof.
  intros (Hinv & Hr & Hs) Hst.
  split; [by eapply main_inv_step|]. split; [by eapply step_keeps_flag|].
  apply step_inv in Hst as [_ [H|[H|[H| ->]]]].
  - apply main_step_send_frame in H as (-> & _). done.
  - apply recv_step_send_frame in H as (-> & _). done.
  - unfold send_step in H. by rewrite Hs in H.
  - done.
Qed.

Lemma finish_inbound_stops (s : state) :
  winding_down_inbound s → stopped (run finish_inbound s).
Proof.
  intros (Hinv & Hr & Hsd).
  change finish_inbound
    with ([TMain; TMain; TMain] ++ [TRecv; TRecv] ++ [TMain; TMain; TMain]).
  rewrite !run_app.
  assert (mpc s ≠ MKilled) as Halive.
  { intros Hm. unfold main_inv in Hinv. rewrite Hm in Hinv.
    destruct Hinv as (_ & ? & ? & ? & ?). congruence. }
  destruct (main_reaches_join s Hinv Hr Halive)
    as (Hk & Hrp & Hsp & Hc & H1 & H2 & H3 & H4).
  set (s1 := run [TMain; TMain; TMain] s) in *.
  assert (main_inv s1) as Hinv1
    by (by apply run_invariant; [apply main_inv_step|]).
  assert (running s1 = false) as Hr1 by (by apply run_keeps_flag).
  destruct (exited s1) eqn:Hex.
  - rewrite (run_exited [TRecv; TRecv] s1 Hex),
      (run_exited [TMain; TMain; TMain] s1 Hex).
    unfold exited in Hex. destruct (mpc s1) eqn:Hm; try done.
    by apply (exit_is_stopped s1 code).
  - destruct (recv_returns s1 Hk Hr1 Hex) as (Hrd & Hm2 & Hsp2).
    set (s2 := run [TRecv; TRecv] s1) in *.
    apply main_returns; try congruence.
    by apply run_invariant; [apply main_inv_step|].
Qed.

Lemma winding_down_inbound_stops (sched : list tid) (s : state) :
  winding_down_inbound s → stopped (run (sched ++ finish_inbound) s).
Proof.
  intros Hw. rewrite run_app. apply finish_inbound_stops.
  by apply (run_invariant winding_down_inbound);
    [apply winding_down_inbound_step|].
Qed.

(** X8: once the outbound relay has returned (end of input, write error,
    or the flag seen at the loop head) the session needs nothing from the
    console or the peer to stop: after any interleaving, three steps of
    main, two of the inbound relay and three of main leave it Stopped; the
    half-close and close release an inbound relay that waits in recv. *)
Theorem outbound_return_stops_session (name : bytes) (nin : list in_event)
    (nout : list out_event) (con : list console_event) (sched : list tid) :
  let s := run sched (session name nin nout con) in
  spc s = SDone →
  ∀ sched', stopped (run (sched' ++ finish_inbound) s).
Proof.
  intros s Hsd sched'. apply winding_down_inbound_stops.
  split; [apply session_main_inv|]. split; [|done].
  by apply (session_returned_with_flag name nin nout con sched).
Qed.

Lemma outbound_return_stops_session_witness :
  stopped (run ([TRecv; TSigint] ++ finish_inbound)
             (run [TRecv; TSend; TSend] quiet_peer_session)).
Proof.
  apply (outbound_return_stops_session (str "bob") [] [] [ConsoleEOF]
           [TRecv; TSend; TSend]).
  reflexivity.
Defined.

(** X9: end of input is the way to quit: in every reachable state where
    getline finds the console at end of input, the outbound relay sends
    nothing, sets the flag and returns, and from there the session comes to
    Stopped as in X8, also while the inbound relay waits in recv on a silent
    peer. *)
Theorem end_of_input_stops_session (name : bytes) (nin : list in_event)
    (nout : list out_event) (con : list console_event) (sched : list tid)
    (q : list console_event) :
  let s := run sched (session name nin nout con) in
  spc s = SGetline → console s = ConsoleEOF :: q →
  ∃ s', step TSend s = Some s' ∧
        trace s' = trace s ++ [EvGetline None] ∧ wire s' = wire s ∧
        running s' = false ∧ spc s' = SDone ∧
        ∀ sched', stopped (run (sched' ++ finish_inbound) s').
Proof.
  intros s Hpc Hcon.
  pose proof (session_main_inv name nin nout con sched) as Hinv. fold s in Hinv.
  assert (exited s = false) as Hex.
  { destruct (exited s) eqn:E; [|done].
    destruct (exited_spc s Hinv E) as [?|(? & ? & ? & ?)]; congruence. }
  assert (step TSend s
          = Some (set_spc SDone (set_running false (emit [EvGetline None] s))))
    as Hst.
  { unfold step, send_step. by rewrite Hex, Hpc, Hcon. }
  eexists. split; [exact Hst|]. fields. do 4 (split; [done|]).
  intros sched'. apply winding_down_inbound_stops.
  split; [by eapply main_inv_step|]. done.
Qed.

Lemma end_of_input_stops_session_witness :
  ∃ s', step TSend (run [TRecv; TSend] quiet_peer_session) = Some s' ∧
        rpc s' = RRecv ∧ running s' = false ∧ spc s' = SDone ∧
        stopped (run finish_inbound s').
Proof.
  destruct (end_of_input_stops_session (str "bob") [] [] [ConsoleEOF]
              [TRecv; TSend] [])
    as (s' & Hst & _ & _ & Hr & Hs & Hgo); try reflexivity.
  exists s'. split; [exact Hst|]. split.
  - vm_compute in Hst. injection Hst as <-. reflexivity.
  - split; [exact Hr|]. split; [exact Hs|]. apply (Hgo []).
Defined.

(** X10: in a live process, a read that fails with another error than
    EINTR is reported with perror("recv"), sets the flag and ends the
    inbound relay; nothing is printed to cout.  From there, unless the
    outbound relay waits in getline on a console that has nothing for it,
    the process comes to its end after any interleaving once main and the
    outbound relay have taken their next steps: the session is Stopped, or
    the process has been terminated by SIGPIPE because the outbound relay
    sent on the broken or half-closed connection. *)
Theorem read_error_stops_session (name : bytes) (nin : list in_event)
    (nout : list out_event) (con : list console_event) (sched : list tid)
    (r : recv_ret) :
  let s := run sched (session name nin nout con) in
  mpc s ≠ MKilled → rpc s = RRecv →
  os_recv (sock s) (BUF - 1) (net_in s) = Some r →
  recv_n r < 0 → recv_errno r ≠ EINTR →
  ∃ s', step TRecv s = Some s' ∧
        trace s' = trace s ++ [EvRecv (BUF - 1) (recv_n r);
                               EvPerror (str "recv") (recv_errno r)] ∧
        running s' = false ∧ rpc s' = RDone ∧
        (spc s ≠ SGetline ∨ console s ≠ [] →
           ∀ sched', stopped (run (sched' ++ finish) s')
                     ∨ mpc (run (sched' ++ finish) s') = MKilled).
Proof.
  intros s Halive Hpc Hos Hneg Herr.
  pose proof (session_main_inv name nin nout con sched) as Hinv. fold s in Hinv.
  assert (exited s = false) as Hex.
  { destruct (exited s) eqn:E; [|done]. unfold exited in E.
    unfold main_inv in Hinv. destruct (mpc s); try done.
    destruct Hinv as (_ & _ & _ & _ & _ & ?). congruence. }
  assert (step TRecv s = Some (recv_body r s)) as Hst.
  { unfold step, recv_step. by rewrite Hex, Hpc, Hos. }
  pose proof (main_inv_step _ _ _ Hinv Hst) as Hinv'.
  destruct (os_recv_spec _ _ _ _ Hos) as [_ [[Hn Hd]|Hn]]; [|lia].
  exists (recv_body r s). split; [done|].
  assert (trace (recv_body r s)
          = trace s ++ [EvRecv (BUF - 1) (recv_n r);
                        EvPerror (str "recv") (recv_errno r)] ∧
          running (recv_body r s) = false ∧ rpc (recv_body r s) = RDone ∧
          spc (recv_body r s) = spc s ∧ console (recv_body r s) = console s)
    as (Htr & Hrun & Hrd & Hs & Hc).
  { unfold recv_body. rewrite Hn. cbn.
    destruct (Z.eqb_spec (recv_errno r) EINTR); [done|].
    fields. rewrite <- app_assoc. done. }
  do 3 (split; [done|]).
  intros Hgo sched'. rewrite run_app. apply finish_ends.
  apply (run_invariant winding_down); [apply winding_down_step|].
  split; [done|]. split; [done|]. split; [done|]. by rewrite Hs, Hc.
Qed.

Lemma read_error_stops_session_witness :
  ∃ s', step TRecv (run [TRecv; TSend] reset_session) = Some s' ∧
        trace s' = [EvRecv (BUF - 1) (-1); EvPerror (str "recv") 104] ∧
        running s' = false ∧ rpc s' = RDone ∧
        (stopped (run finish s') ∨ mpc (run finish s') = MKilled).
Proof.
  destruct (read_error_stops_session (str "bob") [InErr 104] [] [ConsoleEOF]
              [TRecv; TSend] (RecvRet (-1) [] 104 []))
    as (s' & Hst & Htr & Hr & Hd & Hgo); try reflexivity; try discriminate.
  exists s'. do 4 (split; [assumption|]).
  change (run finish s') with (run ([] ++ finish) s').
  apply Hgo. right. discriminate.
Defined.

(** ** After a request to stop *)

Lemma stop_bound_step (k1 k2 : nat) (t : tid) (s s' : state) :
  running s = false ∧
  (length (lines_read (trace s)) + pending_getline s ≤ k1)%nat ∧
  (length (recv_requests (trace s)) + pending_recv s ≤ k2)%nat →
  step t s = Some s' →
  running s' = false ∧
  (length (lines_read (trace s')) + pending_getline s' ≤ k1)%nat ∧
  (length (recv_requests (trace s')) + pending_recv s' ≤ k2)%nat.
Proof.
  intros (Hr & Hl & Hq) Hst.
  split; [by eapply step_keeps_flag|].
  apply step_inv in Hst as [_ [H|[H|[H| ->]]]].
  - unfold pending_getline, pending_recv in *. unfold main_step in H.
    repeat case_match; simplify_eq; fields;
      try congruence;
      rewrite ?lines_read_app, ?recv_requests_app, ?length_app; simpl; lia.
  - unfold pending_getline, pending_recv in *.
    unfold recv_step, recv_body in H.
    repeat case_match; simplify_eq; fields;
      try congruence;
      rewrite ?lines_read_app, ?recv_requests_app, ?length_app; simpl; lia.
  - unfold pending_getline, pending_recv in *.
    unfold send_step, send_body in H.
    repeat case_match; simplify_eq; fields;
      try congruence;
      rewrite ?lines_read_app, ?recv_requests_app, ?length_app; simpl; lia.
  - done.
Qed.

(** X11: once the flag is set, no new getline and no new recv is begun: in
    any continuation the outbound relay reads at most one more line, and
    none unless it is inside getline; the inbound relay calls recv at most
    once more, and not at all unless it is inside recv.  Nothing is said
    about send: the write loop does not test the flag, and the message of
    a line already read is still sent. *)
Theorem stop_request_bounds_blocking_calls (sched : list tid) (s : state) :
  running s = false →
  (length (lines_read (trace (run sched s)))
   ≤ length (lines_read (trace s)) + pending_getline s)%nat ∧
  (length (recv_requests (trace (run sched s)))
   ≤ length (recv_requests (trace s)) + pending_recv s)%nat.
Proof.
  intros Hr.
  cut (running (run sched s) = false ∧
       (length (lines_read (trace (run sched s))) + pending_getline (run sched s)
        ≤ length (lines_read (trace s)) + pending_getline s)%nat ∧
       (length (recv_requests (trace (run sched s))) + pending_recv (run sched s)
        ≤ length (recv_requests (trace s)) + pending_recv s)%nat).
  { intros (_ & H1 & H2). split; lia. }
  apply (run_invariant
           (λ s', running s' = false ∧
                  (length (lines_read (trace s')) + pending_getline s'
                   ≤ length (lines_read (trace s)) + pending_getline s)%nat ∧
                  (length (recv_requests (trace s')) + pending_recv s'
                   ≤ length (recv_requests (trace s)) + pending_recv s)%nat)).
  - intros t s1 s2. apply stop_bound_step.
  - split; [done|]. split; lia.
Qed.

Lemma stop_request_bounds_blocking_calls_witness :
  (length (lines_read (trace
     (run [TSend; TSend; TSend; TSend; TRecv; TRecv; TRecv]
          (handle_sigint busy_session))))
   ≤ length (lines_read (trace (handle_sigint busy_session)))
     + pending_getline (handle_sigint busy_session))%nat ∧
  (length (recv_requests (trace
     (run [TSend; TSend; TSend; TSend; TRecv; TRecv; TRecv]
          (handle_sigint busy_session))))
   ≤ length (recv_requests (trace (handle_sigint busy_session)))
     + pending_recv (handle_sigint busy_session))%nat.
Proof.
  apply (stop_request_bounds_blocking_calls
           [TSend; TSend; TSend; TSend; TRecv; TRecv; TRecv]
           (handle_sigint busy_session)).
  reflexivity.
Defined.

Lemma closed_wire_step (w : bytes) (t : tid) (s s' : state) :
  sock s ≠ SockOpen ∧ wire s = w → step t s = Some s' →
  sock s' ≠ SockOpen ∧ wire s' = w.
Proof.
  intros [Hk Hw] Hst. apply step_inv in Hst as [_ [H|[H|[H| ->]]]].
  - unfold main_step in H.
    repeat case_match; simplify_eq; fields; split; congruence.
  - pose proof (recv_step_send_frame _ _ H) as (_ & Hw' & _).
    apply recv_step_main_frame in H as (_ & Hk' & _).
    split; congruence.
  - unfold send_step, send_body, os_send in H.
    repeat case_match; simplify_eq; fields; split; congruence.
  - done.
Qed.

(** X12: after the half-close nothing more reaches the peer: from any state
    in which the connection is no longer open, the bytes taken by the
    kernel stay what they are under every schedule (a send raises SIGPIPE
    or, after the close, fails with EBADF), and the connection is never
    open again. *)
Theorem no_byte_after_half_close (sched : list tid) (s : state) :
  sock s ≠ SockOpen →
  wire (run sched s) = wire s ∧ sock (run sched s) ≠ SockOpen.
Proof.
  intros Hk.
  cut (sock (run sched s) ≠ SockOpen ∧ wire (run sched s) = wire s); [tauto|].
  apply (run_invariant (λ s', sock s' ≠ SockOpen ∧ wire s' = wire s)); [|done].
  intros t s1 s2. apply closed_wire_step.
Qed.

Lemma no_byte_after_half_close_witness :
  wire (run [TSend; TSend; TMain; TSend] half_closed_session) = str "bob" ∧
  sock (run [TSend; TSend; TMain; TSend] half_closed_session) ≠ SockOpen.
Proof.
  apply (no_byte_after_half_close [TSend; TSend; TMain; TSend]
           half_closed_session).
  discriminate.
Defined.

(** ** From one console to the other *)

Lemma os_recv_whole (m : bytes) (q : list in_event) :
  (length m ≤ BUF - 1)%nat →
  os_recv SockOpen (BUF - 1) (InData m :: q)
  = Some (RecvRet (Z.of_nat (length m)) m 0 q).
Proof.
  intros Hlen. unfold os_recv, recv_queued.
  by rewrite take_ge, drop_ge by done.
Qed.

(** A chunk that fits one read, read by a fresh inbound relay. *)
Lemma recv_one_chunk (name m : bytes) (q : list in_event)
    (nout : list out_event) (con : list console_event) :
  m ≠ [] → (length m ≤ BUF - 1)%nat →
  ∃ nl,
    trace (run [TRecv; TRecv] (session name (InData m :: q) nout con))
    = [EvRecv (BUF - 1) (Z.of_nat (length m)); EvWrite Cout (str "[remote] ");
       EvWrite Cout (c_str m)] ++ nl ++ [EvFlush Cout] ∧
    (last m ≠ Some newline → nl = [EvWrite Cout [newline]]) ∧
    (last m = Some newline → nl = []).
Proof.
  intros Hne Hlen.
  set (r := RecvRet (Z.of_nat (length m)) m 0 q).
  set (s1 := set_rpc RRecv (session name (InData m :: q) nout con)).
  assert (run [TRecv; TRecv] (session name (InData m :: q) nout con)
          = recv_body r s1) as ->.
  { rewrite !run_cons, run_nil.
    change (step TRecv (session name (InData m :: q) nout con)) with (Some s1).
    change (default _ (Some s1)) with s1.
    unfold step, recv_step.
    change (exited s1) with false. change (rpc s1) with RRecv.
    change (sock s1) with SockOpen. change (net_in s1) with (InData m :: q).
    by rewrite os_recv_whole. }
  destruct (recv_body_chunk r s1) as (nl & Htr & Hnl1 & Hnl2 & _).
  - simpl. destruct m; simpl in *; [done | lia].
  - done.
  - change (buf s1) with (replicate BUF NUL). change (recv_data r) with m.
    rewrite length_replicate. unfold BUF in *. lia.
  - exists nl. by rewrite Htr.
Qed.

Lemma message_no_NUL (name line : bytes) :
  NUL ∉ name → NUL ∉ line → NUL ∉ message name line.
Proof.
  intros Hn Hl. unfold message.
  rewrite !not_elem_of_app. split; [done|]. split; [|split; [done|]].
  - intros H. repeat (apply elem_of_cons in H as [H|H]; [discriminate|]).
    by apply elem_of_nil in H.
  - intros H. apply elem_of_cons in H as [H|H]; [discriminate|].
    by apply elem_of_nil in H.
Qed.

Lemma message_last (name line : bytes) :
  last (message name line) = Some newline.
Proof. unfold message. rewrite !app_assoc. apply last_snoc. Qed.

(** X13: a line typed on one side is the line printed on the other.  When
    the outbound relay of A has read the single line [line] and is back at
    its loop, the bytes it has put on the wire, handed in one read to a
    fresh inbound relay of B, make B print exactly
    "[remote] " + nameA + ": " + line and the end of line, with no newline
    added, provided name and line hold no NUL and the message fits one
    read. *)
Theorem line_typed_is_line_printed (nameA nameB line : bytes)
    (ninA : list in_event) (noutA noutB : list out_event)
    (conA conB : list console_event) (schedA : list tid) :
  Forall (fits nameA) conA →
  NUL ∉ nameA → NUL ∉ line →
  (length (message nameA line) ≤ BUF - 1)%nat →
  let a := run schedA (session nameA ninA noutA conA) in
  spc a = SHead → lines_read (trace a) = [line] →
  wire a = nameA ++ str ": " ++ line ++ [newline] ∧
  cout_text (trace (run [TRecv; TRecv]
                      (session nameB [InData (wire a)] noutB conB)))
  = str "[remote] " ++ nameA ++ str ": " ++ line ++ [newline].
Proof.
  intros Hfit HnA Hnl Hlen a Hpc Hread.
  destruct (session_send_inv nameA ninA noutA conA schedA Hfit)
    as (_ & _ & _ & Hp).
  fold a in Hp. unfold send_progress in Hp. rewrite Hpc, Hread in Hp.
  assert (wire a = message nameA line) as Hw.
  { rewrite Hp. unfold sent_whole. simpl. by rewrite app_nil_r. }
  split; [done|]. rewrite Hw.
  destruct (recv_one_chunk nameB (message nameA line) [] noutB conB)
    as (nl & -> & _ & Hnl2); [|done|].
  { intros E. pose proof (message_nonempty nameA line) as H.
    rewrite E in H. done. }
  rewrite (Hnl2 (message_last nameA line)).
  rewrite c_str_no_NUL by (by apply message_no_NUL).
  unfold cout_text. simpl. by rewrite app_nil_r.
Qed.

Lemma line_typed_is_line_printed_witness :
  wire alice_sent = str "alice" ++ str ": " ++ str "hello" ++ [newline] ∧
  cout_text (trace (run [TRecv; TRecv]
                      (session (str "bob") [InData (wire alice_sent)] [] [])))
  = str "[remote] " ++ str "alice" ++ str ": " ++ str "hello" ++ [newline].
Proof.
  apply (line_typed_is_line_printed (str "alice") (str "bob") (str "hello")
           [] [OutAccept 4; OutAccept 100] [] [ConsoleLine (str "hello")] []
           [TSend; TSend; TSend; TSend; TSend]);
    try reflexivity.
  - repeat constructor.
  - intros H. repeat (apply elem_of_cons in H as [H|H]; [discriminate|]).
    by apply elem_of_nil in H.
  - intros H. repeat (apply elem_of_cons in H as [H|H]; [discriminate|]).
    by apply elem_of_nil in H.
  - vm_compute. lia.
Defined.

Lemma recv_body_net_in (r : recv_ret) (s : state) :
  net_in (recv_body r s) = recv_rest r.
Proof. unfold recv_body. repeat case_match; fields; done. Qed.

(** X14: a read never takes more than BUF - 1 = 1023 bytes: when more are
    waiting, the inbound relay prints the first 1023 as a chunk of their
    own, adds a newline unless the 1023rd byte is one, and leaves the
    others for the next read, which prints them behind a new "[remote] ";
    a line longer than 1023 bytes therefore comes out in pieces. *)
Theorem long_input_is_split (name : bytes) (nin : list in_event)
    (nout : list out_event) (con : list console_event) (sched : list tid)
    (bs : bytes) (q : list in_event) :
  let s := run sched (session name nin nout con) in
  rpc s = RRecv → sock s = SockOpen → net_in s = InData bs :: q →
  (BUF - 1 < length bs)%nat →
  ∃ s' nl,
    recv_step s = Some s' ∧
    net_in s' = InData (drop (BUF - 1) bs) :: q ∧
    trace s' = trace s ++ [EvRecv (BUF - 1) 1023;
                           EvWrite Cout (str "[remote] ");
                           EvWrite Cout (c_str (take (BUF - 1) bs))]
                       ++ nl ++ [EvFlush Cout] ∧
    (bs !! 1022%nat ≠ Some newline → nl = [EvWrite Cout [newline]]) ∧
    (bs !! 1022%nat = Some newline → nl = []) ∧
    rpc s' = RHead.
Proof.
  intros s Hpc Hk Hnet Hlen.
  set (r := RecvRet 1023 (take (BUF - 1) bs) 0 (InData (drop (BUF - 1) bs) :: q)).
  assert (length (take (BUF - 1) bs) = 1023%nat) as Htake
    by (rewrite length_take; unfold BUF in *; lia).
  assert (os_recv (sock s) (BUF - 1) (net_in s) = Some r) as Hos.
  { rewrite Hk, Hnet. unfold os_recv, recv_queued, r. rewrite Htake.
    destruct (drop (BUF - 1) bs) eqn:E; [|done].
    apply (f_equal length) in E. rewrite length_drop in E.
    unfold BUF in *. simpl in E. lia. }
  destruct (reachable_prints_chunk name nin nout con sched r Hpc Hos)
    as [(s' & nl & Hst & Htr & Hnl1 & Hnl2 & _ & Hhead) _]; [done|].
  fold s in Hst, Htr.
  assert (s' = recv_body r s) as Hs'.
  { unfold recv_step in Hst. rewrite Hpc, Hos in Hst. congruence. }
  assert (last (take (BUF - 1) bs) = bs !! 1022%nat) as Hlast.
  { rewrite last_lookup, Htake. simpl. apply lookup_take_lt.
    unfold BUF. lia. }
  exists s', nl. split; [done|]. split; [by rewrite Hs', recv_body_net_in|].
  split; [done|].
  change (recv_data r) with (take (BUF - 1) bs) in Hnl1, Hnl2.
  rewrite Hlast in Hnl1, Hnl2. done.
Qed.

Lemma long_input_is_split_witness :
  ∃ s' nl,
    recv_step (run [TRecv] long_line_session) = Some s' ∧
    net_in s' = [InData (drop (BUF - 1) (replicate 1500 "a"%char ++ [newline]))] ∧
    trace s' = [EvRecv (BUF - 1) 1023; EvWrite Cout (str "[remote] ");
                EvWrite Cout (c_str (take (BUF - 1)
                                       (replicate 1500 "a"%char ++ [newline])))]
               ++ nl ++ [EvFlush Cout] ∧
    (nl = [EvWrite Cout [newline]]) ∧ rpc s' = RHead.
Proof.
  destruct (long_input_is_split (str "bob")
              [InData (replicate 1500 "a"%char ++ [newline])] [] [] [TRecv]
              (replicate 1500 "a"%char ++ [newline]) [])
    as (s' & nl & Hst & Hnet & Htr & Hnl & _ & Hhead); try reflexivity.
  { vm_compute. lia. }
  exists s', nl. do 3 (split; [assumption|]). split; [|assumption].
  apply Hnl. vm_compute. discriminate.
Defined.

(** ** What a successful start prints *)

Lemma cout_text_app (a b : list event) :
  cout_text (a ++ b) = cout_text a ++ cout_text b.
Proof. unfold cout_text. by rewrite omap_app, concat_app. Qed.

Lemma connect_loop_quiet (l : list addrinfo) :
  cout_text (connect_loop l).2 = [].
Proof.
  induction l as [|a l IH]; [done|]. rewrite connect_loop_cons.
  destruct (ai_socket a =? -1); [done|].
  destruct (ai_connect a =? 0); [done|].
  by destruct (connect_loop l).
Qed.

(** X15: when the connection is established, what main has written to cout
    is the status of its role and nothing else: for the listener the line
    "Listening on port P ... waiting for a connection" and the line
    "Client connected", for the dialer the line "Connected to HOST:PORT". *)
Theorem status_lines_on_success (argv : list bytes) (os : os_setup) (fd : Z)
    (name : bytes) (out : list event) :
  main_setup argv os = SetupOk fd name out →
  cout_text out
  = if bytes_eqb (arg argv 1) (str "--listen")
    then str "Listening on port " ++ arg argv 2
           ++ str " ... waiting for a connection" ++ [newline]
           ++ str "Client connected" ++ [newline]
    else str "Connected to " ++ arg argv 1 ++ str ":" ++ arg argv 2
           ++ [newline].
Proof.
  unfold main_setup. intros H.
  destruct (Z.of_nat (length argv) <? 2); [done|].
  destruct (bytes_eqb (arg argv 1) (str "--listen")).
  - destruct (Z.of_nat (length argv) <? 3); [done|].
    unfold create_server_socket in H.
    destruct (negb (gai_ret os =? 0)); [done|].
    destruct (ai_socket (gai_res os) <? 0) eqn:Hs; [done|].
    destruct (negb (ai_bind (gai_res os) =? 0)); [done|].
    destruct (negb (listen_ret os =? 0)); [done|].
    rewrite Hs in H. destruct (accept_ret os <? 0); [done|].
    simplify_eq. reflexivity.
  - destruct (Z.of_nat (length argv) <? 3); [done|].
    unfold create_client_socket in H.
    destruct (negb (gai_ret os =? 0)); [done|].
    pose proof (connect_loop_quiet (gai_res os :: gai_next os)) as Hq.
    destruct (connect_loop (gai_res os :: gai_next os)) as [sfd evs].
    simpl in Hq.
    destruct (Z.eqb_spec sfd (-1)) as [->|Hne]; [done|].
    destruct (sfd <? 0); [done|]. simplify_eq.
    rewrite cout_text_app, Hq. reflexivity.
Qed.

Lemma status_lines_on_success_witness :
  cout_text (setup_out (main_setup dial_argv dial_second))
  = str "Connected to " ++ str "127.0.0.1" ++ str ":" ++ str "9001" ++ [newline].
Proof.
  apply (status_lines_on_success dial_argv dial_second 4 (str "bob")).
  reflexivity.
Defined.

(** ** A write error *)

Lemma os_send_not_EPIPE (sk : sock_state) (data : bytes)
    (q : list out_event) (r : send_ret) :
  os_send sk data q = Some (SendReturns r) → send_n r < 0 →
  send_errno r ≠ EPIPE.
Proof.
  unfold os_send. intros H Hn.
  destruct sk; [destruct q as [|[room|e] q] | |]; simplify_eq; simpl in *;
    [lia | | done].
  destruct (Z.eqb_spec e EPIPE); simplify_eq. done.
Qed.

(** X16: how a failing send ends, in a live process inside the write loop.
    A send that returns an error other than EINTR (never EPIPE) is reported
    with perror("send"), puts no byte on the wire, sets the flag and ends
    the outbound relay, which does not offer the rest of the message again;
    from there the session comes to Stopped after any interleaving, once
    main and the inbound relay have taken their next steps.  A send on a
    broken or half-closed connection raises SIGPIPE instead: the process is
    terminated on the spot, with no message, and main never returns. *)
Theorem write_error_stops_session (name : bytes) (nin : list in_event)
    (nout : list out_event) (con : list console_event) (sched : list tid)
    (out : bytes) (sent to_send : Z) :
  let s := run sched (session name nin nout con) in
  mpc s ≠ MKilled → spc s = SSend out sent to_send → 0 < to_send →
  (∀ r, os_send (sock s) (offered out sent to_send) (net_out s)
        = Some (SendReturns r) →
        send_n r < 0 → send_errno r ≠ EINTR →
     send_errno r ≠ EPIPE ∧
     ∃ s', step TSend s = Some s' ∧
           trace s' = trace s ++ [EvSend (offered out sent to_send) (send_n r);
                                  EvPerror (str "send") (send_errno r)] ∧
           wire s' = wire s ∧ running s' = false ∧ spc s' = SDone ∧
           ∀ sched', stopped (run (sched' ++ finish_inbound) s')) ∧
  (os_send (sock s) (offered out sent to_send) (net_out s) = Some SendSigpipe →
     ∃ s', step TSend s = Some s' ∧
           trace s' = trace s ++ [EvSigpipe] ∧ wire s' = wire s ∧
           mpc s' = MKilled ∧
           ∀ sched', run sched' s' = s').
Proof.
  intros s Halive Hpc Hpos.
  pose proof (session_main_inv name nin nout con sched) as Hinv. fold s in Hinv.
  assert (exited s = false) as Hex.
  { destruct (exited s) eqn:E; [|done]. unfold exited in E.
    unfold main_inv in Hinv. destruct (mpc s); try done.
    destruct Hinv as (_ & _ & _ & _ & ? & _). congruence. }
  split.
  - intros r Hos Hneg Herr.
    split; [by eapply os_send_not_EPIPE|].
    assert (step TSend s = Some (send_body out sent to_send r s)) as Hst.
    { unfold step, send_step. rewrite Hex, Hpc.
      destruct (Z.ltb_spec 0 to_send); [|lia]. by rewrite Hos. }
    pose proof (main_inv_step _ _ _ Hinv Hst) as Hinv'.
    exists (send_body out sent to_send r s). split; [done|].
    assert (trace (send_body out sent to_send r s)
            = trace s ++ [EvSend (offered out sent to_send) (send_n r);
                          EvPerror (str "send") (send_errno r)] ∧
            wire (send_body out sent to_send r s) = wire s ∧
            running (send_body out sent to_send r s) = false ∧
            spc (send_body out sent to_send r s) = SDone)
      as (Htr & Hw & Hrun & Hsd).
    { unfold send_body. destruct (Z.ltb_spec (send_n r) 0); [|lia].
      destruct (Z.eqb_spec (send_errno r) EINTR); [done|].
      fields. rewrite <- app_assoc. done. }
    do 4 (split; [done|]).
    intros sched'. by apply winding_down_inbound_stops.
  - intros Hos.
    exists (set_mpc MKilled (emit [EvSigpipe] s)). split.
    { unfold step, send_step. rewrite Hex, Hpc.
      destruct (Z.ltb_spec 0 to_send); [|lia]. by rewrite Hos. }
    fields. do 3 (split; [done|]).
    intros sched'. by apply killed_stays.
Qed.

Lemma write_error_stops_session_witness :
  (∃ s', step TSend (run [TSend; TSend; TSend] broken_pipe_session) = Some s' ∧
         wire s' = str "bob" ∧ running s' = false ∧ spc s' = SDone ∧
         stopped (run finish_inbound s')) ∧
  (∃ s', step TSend (run [TSend; TSend; TSigint; TMain; TMain]
                         broken_pipe_session) = Some s' ∧
         mpc s' = MKilled ∧ run quit s' = s').
Proof.
  split.
  - destruct (write_error_stops_session (str "bob") []
                [OutAccept 3; OutErr 104] [ConsoleLine (str "hi")]
                [TSend; TSend; TSend] (message (str "bob") (str "hi")) 3 5)
      as [Herr _]; try reflexivity; try discriminate.
    destruct (Herr (SendRet (-1) 104 []))
      as (_ & s' & Hst & _ & Hw & Hr & Hs & Hgo);
      try reflexivity; try discriminate.
    exists s'. split; [exact Hst|]. split; [exact Hw|].
    split; [exact Hr|]. split; [exact Hs|]. apply (Hgo []).
  - destruct (write_error_stops_session (str "bob") []
                [OutAccept 3; OutErr 104] [ConsoleLine (str "hi")]
                [TSend; TSend; TSigint; TMain; TMain]
                (message (str "bob") (str "hi")) 0 8)
      as [_ Hpipe]; try reflexivity; try discriminate.
    destruct Hpipe as (s' & Hst & _ & _ & Hm & Hstay); [reflexivity|].
    exists s'. split; [exact Hst|]. split; [exact Hm|]. apply Hstay.
Defined.
